(** * conf8n: a hierarchical configuration accessor

    A shallow embedding of the Go package [conf8n] (config.go and the
    lookup helpers [getValueWithCompositeKey] and [toStrMap]) together
    with the properties of dotted-key lookup, typed accessors and
    iterators.

    Go data is modelled as follows.
    - [interface{}] is the inductive type [iface]: one constructor per
      dynamic type the package inspects, and [VOther] for every other
      dynamic type (int64, []string, a struct, ...), which the package
      treats as opaque.
    - [int] is [Z] (the package never computes with configuration
      integers; the only arithmetic is the iterator index, which stays
      within the length of a slice).
    - [float64] is the binary64 type [PrimFloat.float].
    - [string] is [String.string], a sequence of bytes.
    - [map[string]interface{}] is [option (gmap string iface)]: [None] is
      the nil map, which reads like the empty map but differs from it
      under [!= nil].
    - [map[interface{}]interface{}] is an optional association list whose
      order is the order in which [range] visits the entries.
    - [[]interface{}] is [list iface].
    - A run-time panic (index out of range) is the [Panic] outcome of
      [result]. *)

From Stdlib Require Import ZArith PrimFloat Ascii.
From stdpp Require Import gmap strings list fin_maps.
From Equations Require Import Equations.

Local Open Scope Z_scope.

(** ** Values *)

#[warnings="-register-all"]
Inductive iface : Type :=
| VNil
| VInt (n : Z)
| VString (s : string)
| VFloat (f : float)
| VBool (b : bool)
| VSlice (a : list iface)
| VStrMap (m : option (gmap string iface))
| VIMap (m : option (list (iface * iface)))
| VOther (ty : string).

(** The Go type [map[string]interface{}]. *)
Abbreviation StrMap := (option (gmap string iface)) (only parsing).

(** Outcome of a Go call that may panic. *)
Inductive result (A : Type) : Type :=
| Ok (a : A)
| Panic (msg : string).
Arguments Ok {A} a.
Arguments Panic {A} msg.

Definition bind {A B : Type} (r : result A) (k : A -> result B) : result B :=
  match r with
  | Ok a => k a
  | Panic msg => Panic msg
  end.

Notation "x <- r ;; k" := (bind r (fun x => k))
  (at level 100, r at next level, right associativity).

(** A Go [error] value built by [fmt.Errorf]; [None] stands for the nil
    error. *)
Inductive error : Type :=
| Errorf (msg : string).

(** ** Language primitives *)

(** [v, ok := m[k]]: a nil map reads as an empty one. *)
Definition mapIndex (m : StrMap) (k : string) : iface * bool :=
  match m with
  | Some g =>
      match g !! k with
      | Some v => (v, true)
      | None => (VNil, false)
      end
  | None => (VNil, false)
  end.

(** [a[i]] on a slice, panicking outside [0 <= i < len(a)]. *)
Definition sliceIndex {A : Type} (a : list A) (i : Z) : result A :=
  if (0 <=? i) && (i <? Z.of_nat (length a)) then
    match a !! Z.to_nat i with
    | Some x => Ok x
    | None => Panic "index out of range"
    end
  else Panic "index out of range".

(** Type assertions in their comma-ok form, [x, ok := v.(T)]. *)
Definition assertInt (v : iface) : Z * bool :=
  match v with VInt n => (n, true) | _ => (0, false) end.

Definition assertString (v : iface) : string * bool :=
  match v with VString s => (s, true) | _ => (EmptyString, false) end.

Definition assertFloat (v : iface) : float * bool :=
  match v with VFloat f => (f, true) | _ => (0%float, false) end.

Definition assertBool (v : iface) : bool * bool :=
  match v with VBool b => (b, true) | _ => (false, false) end.

Definition assertSlice (v : iface) : list iface * bool :=
  match v with VSlice a => (a, true) | _ => ([], false) end.

Definition assertStrMap (v : iface) : StrMap * bool :=
  match v with VStrMap m => (m, true) | _ => (None, false) end.

Definition assertIMap (v : iface) : option (list (iface * iface)) * bool :=
  match v with VIMap m => (m, true) | _ => (None, false) end.

(** [strings.Split(s, sep)] for a separator of one byte, the only kind
    this package uses: the pieces of [s] between the occurrences of the
    byte, so the result is never empty. *)
Fixpoint splitByte (c : Ascii.ascii) (s : string) : list string :=
  match s with
  | EmptyString => [EmptyString]
  | String x r =>
      if Ascii.eqb x c then EmptyString :: splitByte c r
      else match splitByte c r with
           | h :: t => String x h :: t
           | [] => [String x EmptyString]
           end
  end.

(** Separators of any other length do not occur in the package and are
    not modelled. *)
Definition Split (s sep : string) : list string :=
  match sep with
  | String c EmptyString => splitByte c s
  | _ => [s]
  end.

(** ** The package *)

Definition SEP : string := ".".

Record Config : Type := mkConfig { data : StrMap }.

Record ConfigValue : Type := mkConfigValue { v : iface }.

Definition NewConfig (fromData : StrMap) : Config := {| data := fromData |}.

(** The loop of [toStrMap] over the entries of an interface-keyed map:
    [strMap] is the map built so far; a key that is not a string makes the
    whole conversion return nil. *)
Fixpoint toStrMap_loop (entries : list (iface * iface)) (strMap : gmap string iface)
  : StrMap :=
  match entries with
  | [] => Some strMap
  | (k, x) :: rest =>
      let '(asStr, ok) := assertString k in
      if ok then toStrMap_loop rest (<[asStr := x]> strMap) else None
  end.

Definition toStrMap (value : iface) : StrMap :=
  let '(alreadyStrMap, ok) := assertStrMap value in
  if ok then alreadyStrMap
  else
    let '(asIMap, ok) := assertIMap value in
    if ok then toStrMap_loop (default [] asIMap) ∅
    else None.

Equations? getValueWithCompositeKey (m : StrMap) (keyChunks : list string)
    (current : Z) : result iface
    by wf (Z.to_nat (Z.of_nat (length keyChunks) - current)) lt :=
getValueWithCompositeKey m keyChunks current
    with decide (0 <= current < Z.of_nat (length keyChunks)) := {
  | right _ := Panic "index out of range";
  | left _ :=
      let data := (mapIndex m (nth (Z.to_nat current) keyChunks EmptyString)).1 in
      if current =? Z.of_nat (length keyChunks) - 1 then Ok data
      else
        let data' := toStrMap data in
        match data' with
        | Some _ => getValueWithCompositeKey data' keyChunks (current + 1)
        | None => Ok VNil
        end }.
Proof. lia. Qed.

Definition Get (c : Config) (key : string) : result ConfigValue :=
  let '(x, ok) := mapIndex (data c) key in
  if ok then Ok {| v := x |}
  else
    x <- getValueWithCompositeKey (data c) (Split key SEP) 0 ;;
    Ok {| v := x |}.

Definition IsSet (cv : ConfigValue) : bool :=
  match v cv with VNil => false | _ => true end.

Definition IsSlice (cv : ConfigValue) : bool := (assertSlice (v cv)).2.

Definition IsMap (cv : ConfigValue) : bool :=
  if (assertStrMap (v cv)).2 then true else (assertIMap (v cv)).2.

Definition Int (cv : ConfigValue) : Z := (assertInt (v cv)).1.

Definition String (cv : ConfigValue) : string := (assertString (v cv)).1.

Definition Float (cv : ConfigValue) : float := (assertFloat (v cv)).1.

Definition Bool (cv : ConfigValue) : bool := (assertBool (v cv)).1.

Definition Raw (cv : ConfigValue) : iface := v cv.

(** The method [Config] of [ConfigValue]. *)
Definition ConfigOf (cv : ConfigValue) : Config := NewConfig (toStrMap (v cv)).

Definition MustInt (cv : ConfigValue) : Z * option error :=
  if negb (IsSet cv) then (0, Some (Errorf "Value is not set"))
  else
    let '(i, ok) := assertInt (v cv) in
    if ok then (i, None) else (0, Some (Errorf "Value is not int")).

Definition MustString (cv : ConfigValue) : string * option error :=
  if negb (IsSet cv) then (EmptyString, Some (Errorf "Value is not set"))
  else
    let '(s, ok) := assertString (v cv) in
    if ok then (s, None) else (EmptyString, Some (Errorf "Value is not string")).

Definition MustFloat (cv : ConfigValue) : float * option error :=
  if negb (IsSet cv) then (0%float, Some (Errorf "Value is not set"))
  else
    let '(f, ok) := assertFloat (v cv) in
    if ok then (f, None) else (0%float, Some (Errorf "Value is not float")).

Definition MustBool (cv : ConfigValue) : bool * option error :=
  if negb (IsSet cv) then (false, Some (Errorf "Value is not set"))
  else
    let '(b, ok) := assertBool (v cv) in
    if ok then (b, None) else (false, Some (Errorf "Value is not bool")).

Definition DefInt (cv : ConfigValue) (def : Z) : Z :=
  let '(i, ok) := assertInt (v cv) in if ok then i else def.

Definition DefString (cv : ConfigValue) (def : string) : string :=
  let '(s, ok) := assertString (v cv) in if ok then s else def.

Definition DefFloat (cv : ConfigValue) (def : float) : float :=
  let '(f, ok) := assertFloat (v cv) in if ok then f else def.

Definition DefBool (cv : ConfigValue) (def : bool) : bool :=
  let '(b, ok) := assertBool (v cv) in if ok then b else def.

Definition Count (cv : ConfigValue) : Z :=
  let '(a, ok) := assertSlice (v cv) in
  if ok then Z.of_nat (length a) else 0.

(** ** Iterators *)

(** The interface [Iterator]. In Go [Next] updates the iterator in place;
    here it returns the updated iterator. *)
Class Iterator (I : Type) : Type := {
  Next : I -> I;
  Finished : I -> bool;
  Index : I -> Z;
  Key : I -> result string;
  Value : I -> result ConfigValue }.

Record ListIterator : Type := mkListIterator { a : list iface; i : Z }.

(** [MapIterator] embeds a [*ListIterator] over the keys, so [Next],
    [Finished] and [Index] are those of the embedded iterator. *)
Record MapIterator : Type :=
  mkMapIterator { list_iterator : ListIterator; m : StrMap }.

Inductive EmptyIterator : Type := mkEmptyIterator.

Definition ListIterator_Finished (it : ListIterator) : bool :=
  i it =? Z.of_nat (length (a it)).

Definition ListIterator_Next (it : ListIterator) : ListIterator :=
  if negb (ListIterator_Finished it) then {| a := a it; i := i it + 1 |}
  else it.

Definition ListIterator_Value (it : ListIterator) : result ConfigValue :=
  x <- sliceIndex (a it) (i it) ;; Ok {| v := x |}.

Definition ListIterator_Index (it : ListIterator) : Z := i it.

Definition ListIterator_Key (it : ListIterator) : string := EmptyString.

Definition MapIterator_Key (it : MapIterator) : result string :=
  k <- ListIterator_Value (list_iterator it) ;; Ok (String k).

Definition MapIterator_Value (it : MapIterator) : result ConfigValue :=
  k <- MapIterator_Key it ;; Ok {| v := (mapIndex (m it) k).1 |}.

Definition MapIterator_Next (it : MapIterator) : MapIterator :=
  {| list_iterator := ListIterator_Next (list_iterator it); m := m it |}.

Definition EmptyIterator_Next (it : EmptyIterator) : EmptyIterator := it.

Definition EmptyIterator_Value (it : EmptyIterator) : ConfigValue :=
  {| v := VNil |}.

Definition EmptyIterator_Finished (it : EmptyIterator) : bool := true.

Definition EmptyIterator_Index (it : EmptyIterator) : Z := 0.

Definition EmptyIterator_Key (it : EmptyIterator) : string := EmptyString.

#[export] Instance ListIterator_Iterator : Iterator ListIterator := {|
  Next := ListIterator_Next;
  Finished := ListIterator_Finished;
  Index := ListIterator_Index;
  Key := fun it => Ok (ListIterator_Key it);
  Value := ListIterator_Value |}.

#[export] Instance MapIterator_Iterator : Iterator MapIterator := {|
  Next := MapIterator_Next;
  Finished := fun it => ListIterator_Finished (list_iterator it);
  Index := fun it => ListIterator_Index (list_iterator it);
  Key := MapIterator_Key;
  Value := MapIterator_Value |}.

#[export] Instance EmptyIterator_Iterator : Iterator EmptyIterator := {|
  Next := EmptyIterator_Next;
  Finished := EmptyIterator_Finished;
  Index := EmptyIterator_Index;
  Key := fun it => Ok (EmptyIterator_Key it);
  Value := fun it => Ok (EmptyIterator_Value it) |}.

(** A value of interface type [Iterator]: one of the three
    implementations. *)
Inductive iterator : Type :=
| IList (it : ListIterator)
| IMap (it : MapIterator)
| IEmpty (it : EmptyIterator).

#[export] Instance iterator_Iterator : Iterator iterator := {|
  Next := fun it =>
    match it with
    | IList l => IList (Next l)
    | IMap l => IMap (Next l)
    | IEmpty l => IEmpty (Next l)
    end;
  Finished := fun it =>
    match it with
    | IList l => Finished l
    | IMap l => Finished l
    | IEmpty l => Finished l
    end;
  Index := fun it =>
    match it with
    | IList l => Index l
    | IMap l => Index l
    | IEmpty l => Index l
    end;
  Key := fun it =>
    match it with
    | IList l => Key l
    | IMap l => Key l
    | IEmpty l => Key l
    end;
  Value := fun it =>
    match it with
    | IList l => Value l
    | IMap l => Value l
    | IEmpty l => Value l
    end |}.

Section Range.

(** Go leaves the order in which [range] visits a map unspecified:
    [range_order] is the order of one run, any enumeration of the
    entries. *)
Variable range_order : gmap string iface -> list (string * iface).

Definition mapGetKeys (m : gmap string iface) : list iface :=
  foldl (fun a '(k, _) => a ++ [VString k]) [] (range_order m).

Definition Iterate (cv : ConfigValue) : iterator :=
  let '(a, ok) := assertSlice (v cv) in
  if ok then IList {| a := a; i := 0 |}
  else
    match toStrMap (v cv) with
    | Some g =>
        IMap {| list_iterator := {| a := mapGetKeys g; i := 0 |};
                m := Some g |}
    | None => IEmpty mkEmptyIterator
    end.

End Range.

(** The documented client loop
    [for i := x.Iterate(); !i.Finished(); i.Next() { ... i.Key(), i.Value() ... }],
    collecting what each round reads. [None] means that [fuel] rounds did
    not reach the end. *)
Fixpoint iterate_loop {I : Type} `{Iterator I} (fuel : nat) (it : I)
  : option (result (list (string * ConfigValue))) :=
  if Finished it then Some (Ok [])
  else
    match fuel with
    | O => None
    | S fuel' =>
        match Key it, Value it with
        | Ok k, Ok x =>
            match iterate_loop fuel' (Next it) with
            | Some (Ok rest) => Some (Ok ((k, x) :: rest))
            | other => other
            end
        | Panic msg, _ => Some (Panic msg)
        | _, Panic msg => Some (Panic msg)
        end
    end.

(** ** Reference definitions for dotted-key resolution *)

(** Descent through nested string-keyed maps, one segment at a time: the
    value under the last segment, and nil as soon as an intermediate
    segment is absent or its value is not viewable as a string-keyed
    map. *)
Fixpoint resolve_path (m : StrMap) (segments : list string) : iface :=
  match segments with
  | [] => VNil
  | k :: rest =>
      match rest with
      | [] => (mapIndex m k).1
      | _ :: _ =>
          match mapIndex m k with
          | (x, true) =>
              match toStrMap x with
              | Some g => resolve_path (Some g) rest
              | None => VNil
              end
          | (_, false) => VNil
          end
      end
  end.

Definition resolve (c : Config) (key : string) : iface :=
  match mapIndex (data c) key with
  | (x, true) => x
  | (_, false) => resolve_path (data c) (Split key SEP)
  end.

(** The tree [{k1: {k2: ... {kn: x}}}] of nested string-keyed maps. *)
Fixpoint nest (ks : list string) (x : iface) : iface :=
  match ks with
  | [] => x
  | k :: rest => VStrMap (Some {[ k := nest rest x ]})
  end.

(** The segments joined by the separator. *)
Fixpoint join (ks : list string) : string :=
  match ks with
  | [] => EmptyString
  | [k] => k
  | k :: rest => k +:+ SEP +:+ join rest
  end.

(** A segment without the separator byte. *)
Fixpoint dot_free (s : string) : bool :=
  match s with
  | EmptyString => true
  | String.String c r => negb (Ascii.eqb c "."%char) && dot_free r
  end.

(** ** Reference definitions for interface-keyed maps *)

Definition is_string (x : iface) : bool :=
  match x with VString _ => true | _ => false end.

(** An interface-keyed map whose keys are all strings. *)
Definition all_string_keys (entries : list (iface * iface)) : bool :=
  forallb (fun kv => is_string kv.1) entries.

(** The entries under string keys, in the order of the map. *)
Definition string_entries (entries : list (iface * iface))
  : list (string * iface) :=
  omap (fun kv => match kv.1 with
                  | VString s => Some (s, kv.2)
                  | _ => None
                  end) entries.

(** The keys of a Go map are pairwise distinct. *)
Definition distinct_keys (entries : list (iface * iface)) : Prop :=
  NoDup entries.*1.

(** What a round of the loop reads at key [k] of the map [g]: the key and
    the wrapped [g[k]]. *)
Definition visit (g : gmap string iface) (k : string) : string * ConfigValue :=
  (k, {| v := (mapIndex (Some g) k).1 |}).

(** ** The package over a store of shared maps and slices

    Go maps and slices are references: the value [toStrMap] returns for a
    string-keyed map is the configuration's own map, and a list iterator
    holds the configuration's own slice. To state which objects an
    operation may write, this second embedding keeps maps and backing
    arrays in a store and gives every function of the package as a
    computation over the store. *)

Module Heap.

Definition loc : Type := positive.

(** [interface{}] with maps and slices by reference; [None] is the nil
    map or slice. *)
Inductive hval : Type :=
| HNil
| HInt (n : Z)
| HString (s : string)
| HFloat (f : float)
| HBool (b : bool)
| HSlice (r : option loc)
| HStrMap (r : option loc)
| HIMap (r : option loc)
| HOther (ty : string).

Record store : Type := mkStore {
  strmaps : gmap loc (gmap string hval);
  imaps : gmap loc (list (hval * hval));
  arrays : gmap loc (list hval) }.

(** Computations that read and write the store and may panic. *)
Definition M (A : Type) : Type := store -> result A * store.

Definition ret {A : Type} (x : A) : M A := fun s => (Ok x, s).

Definition panic {A : Type} (msg : string) : M A := fun s => (Panic msg, s).

Definition mbind {A B : Type} (c : M A) (k : A -> M B) : M B :=
  fun s =>
    match c s with
    | (Ok x, s') => k x s'
    | (Panic msg, s') => (Panic msg, s')
    end.

Notation "x <-- c ;; k" := (mbind c (fun x => k))
  (at level 100, c at next level, right associativity).

(** *** Store primitives *)

(** [make(map[string]interface{}, n)]: a new empty map. *)
Definition make_strmap : M loc :=
  fun s =>
    let r := fresh (dom (strmaps s)) in
    (Ok r, {| strmaps := <[r := ∅]> (strmaps s);
              imaps := imaps s; arrays := arrays s |}).

(** [m[k] = x] on the map at [r]. *)
Definition strmap_assign (r : loc) (k : string) (x : hval) : M unit :=
  fun s =>
    (Ok tt, {| strmaps := alter (insert k x) r (strmaps s);
               imaps := imaps s; arrays := arrays s |}).

(** [make([]interface{}, 0, n)]: a new backing array, no element in use. *)
Definition make_slice : M loc :=
  fun s =>
    let r := fresh (dom (arrays s)) in
    (Ok r, {| strmaps := strmaps s; imaps := imaps s;
              arrays := <[r := []]> (arrays s) |}).

(** [a = append(a, x)] within the capacity of the array at [r]. *)
Definition slice_append (r : loc) (x : hval) : M unit :=
  fun s =>
    (Ok tt, {| strmaps := strmaps s; imaps := imaps s;
               arrays := alter (fun a => a ++ [x]) r (arrays s) |}).

Definition strmap_contents (m : option loc) : M (gmap string hval) :=
  fun s => (Ok (default ∅ (r ← m; strmaps s !! r)), s).

Definition imap_contents (m : option loc) : M (list (hval * hval)) :=
  fun s => (Ok (default [] (r ← m; imaps s !! r)), s).

Definition slice_contents (a : option loc) : M (list hval) :=
  fun s => (Ok (default [] (r ← a; arrays s !! r)), s).

(** [v, ok := m[k]]. *)
Definition mapIndex (m : option loc) (k : string) : M (hval * bool) :=
  g <-- strmap_contents m ;;
  ret (match g !! k with
       | Some x => (x, true)
       | None => (HNil, false)
       end).

(** [len(a)]. *)
Definition len (a : option loc) : M Z :=
  l <-- slice_contents a ;; ret (Z.of_nat (length l)).

(** [a[i]]. *)
Definition index (a : option loc) (i : Z) : M hval :=
  l <-- slice_contents a ;;
  match sliceIndex l i with
  | Ok x => ret x
  | Panic msg => panic msg
  end.

(** Type assertions, as in the first embedding. *)
Definition assertInt (x : hval) : Z * bool :=
  match x with HInt n => (n, true) | _ => (0, false) end.

Definition assertString (x : hval) : string * bool :=
  match x with HString s => (s, true) | _ => (EmptyString, false) end.

Definition assertFloat (x : hval) : float * bool :=
  match x with HFloat f => (f, true) | _ => (0%float, false) end.

Definition assertBool (x : hval) : bool * bool :=
  match x with HBool b => (b, true) | _ => (false, false) end.

Definition assertSlice (x : hval) : option loc * bool :=
  match x with HSlice a => (a, true) | _ => (None, false) end.

Definition assertStrMap (x : hval) : option loc * bool :=
  match x with HStrMap m => (m, true) | _ => (None, false) end.

Definition assertIMap (x : hval) : option loc * bool :=
  match x with HIMap m => (m, true) | _ => (None, false) end.

(** *** The package *)

Record Config : Type := mkConfig { data : option loc }.

Record ConfigValue : Type := mkConfigValue { v : hval }.

Definition NewConfig (fromData : option loc) : Config :=
  {| data := fromData |}.

Fixpoint toStrMap_loop (entries : list (hval * hval)) (strMap : loc)
  : M (option loc) :=
  match entries with
  | [] => ret (Some strMap)
  | (k, x) :: rest =>
      let '(asStr, ok) := assertString k in
      if ok then
        _ <-- strmap_assign strMap asStr x ;;
        toStrMap_loop rest strMap
      else ret None
  end.

Definition toStrMap (value : hval) : M (option loc) :=
  let '(alreadyStrMap, ok) := assertStrMap value in
  if ok then ret alreadyStrMap
  else
    let '(asIMap, ok) := assertIMap value in
    if ok then
      strMap <-- make_strmap ;;
      entries <-- imap_contents asIMap ;;
      toStrMap_loop entries strMap
    else ret None.

Equations? getValueWithCompositeKey (m : option loc) (keyChunks : list string)
    (current : Z) : M hval
    by wf (Z.to_nat (Z.of_nat (length keyChunks) - current)) lt :=
getValueWithCompositeKey m keyChunks current
    with decide (0 <= current < Z.of_nat (length keyChunks)) := {
  | right _ := panic "index out of range";
  | left _ :=
      p <-- mapIndex m (nth (Z.to_nat current) keyChunks EmptyString) ;;
      if current =? Z.of_nat (length keyChunks) - 1 then ret p.1
      else
        data' <-- toStrMap p.1 ;;
        match data' with
        | Some _ => getValueWithCompositeKey data' keyChunks (current + 1)
        | None => ret HNil
        end }.
Proof. lia. Qed.

Definition Get (c : Config) (key : string) : M ConfigValue :=
  p <-- mapIndex (data c) key ;;
  if p.2 then ret {| v := p.1 |}
  else
    x <-- getValueWithCompositeKey (data c) (Split key SEP) 0 ;;
    ret {| v := x |}.

Definition IsSet (cv : ConfigValue) : bool :=
  match v cv with HNil => false | _ => true end.

Definition IsSlice (cv : ConfigValue) : bool := (assertSlice (v cv)).2.

Definition IsMap (cv : ConfigValue) : bool :=
  if (assertStrMap (v cv)).2 then true else (assertIMap (v cv)).2.

Definition Int (cv : ConfigValue) : Z := (assertInt (v cv)).1.

Definition String (cv : ConfigValue) : string := (assertString (v cv)).1.

Definition Float (cv : ConfigValue) : float := (assertFloat (v cv)).1.

Definition Bool (cv : ConfigValue) : bool := (assertBool (v cv)).1.

Definition Raw (cv : ConfigValue) : hval := v cv.

(** The method [Config] of [ConfigValue]. *)
Definition ConfigOf (cv : ConfigValue) : M Config :=
  m <-- toStrMap (v cv) ;; ret (NewConfig m).

Definition MustInt (cv : ConfigValue) : Z * option error :=
  if negb (IsSet cv) then (0, Some (Errorf "Value is not set"))
  else
    let '(i, ok) := assertInt (v cv) in
    if ok then (i, None) else (0, Some (Errorf "Value is not int")).

Definition MustString (cv : ConfigValue) : string * option error :=
  if negb (IsSet cv) then (EmptyString, Some (Errorf "Value is not set"))
  else
    let '(s, ok) := assertString (v cv) in
    if ok then (s, None) else (EmptyString, Some (Errorf "Value is not string")).

Definition MustFloat (cv : ConfigValue) : float * option error :=
  if negb (IsSet cv) then (0%float, Some (Errorf "Value is not set"))
  else
    let '(f, ok) := assertFloat (v cv) in
    if ok then (f, None) else (0%float, Some (Errorf "Value is not float")).

Definition MustBool (cv : ConfigValue) : bool * option error :=
  if negb (IsSet cv) then (false, Some (Errorf "Value is not set"))
  else
    let '(b, ok) := assertBool (v cv) in
    if ok then (b, None) else (false, Some (Errorf "Value is not bool")).

Definition DefInt (cv : ConfigValue) (def : Z) : Z :=
  let '(i, ok) := assertInt (v cv) in if ok then i else def.

Definition DefString (cv : ConfigValue) (def : string) : string :=
  let '(s, ok) := assertString (v cv) in if ok then s else def.

Definition DefFloat (cv : ConfigValue) (def : float) : float :=
  let '(f, ok) := assertFloat (v cv) in if ok then f else def.

Definition DefBool (cv : ConfigValue) (def : bool) : bool :=
  let '(b, ok) := assertBool (v cv) in if ok then b else def.

Definition Count (cv : ConfigValue) : M Z :=
  let '(a, ok) := assertSlice (v cv) in
  if ok then len a else ret 0.

(** *** Iterators *)

Record ListIterator : Type := mkListIterator { a : option loc; i : Z }.

Record MapIterator : Type :=
  mkMapIterator { list_iterator : ListIterator; m : option loc }.

Inductive iterator : Type :=
| IList (it : ListIterator)
| IMap (it : MapIterator)
| IEmpty.

Definition ListIterator_Finished (it : ListIterator) : M bool :=
  n <-- len (a it) ;; ret (i it =? n).

Definition ListIterator_Next (it : ListIterator) : M ListIterator :=
  finished <-- ListIterator_Finished it ;;
  if negb finished then ret {| a := a it; i := i it + 1 |} else ret it.

Definition ListIterator_Value (it : ListIterator) : M ConfigValue :=
  x <-- index (a it) (i it) ;; ret {| v := x |}.

Definition MapIterator_Key (it : MapIterator) : M string :=
  k <-- ListIterator_Value (list_iterator it) ;; ret (String k).

Definition MapIterator_Value (it : MapIterator) : M ConfigValue :=
  k <-- MapIterator_Key it ;;
  p <-- mapIndex (m it) k ;;
  ret {| v := p.1 |}.

Definition MapIterator_Next (it : MapIterator) : M MapIterator :=
  l <-- ListIterator_Next (list_iterator it) ;;
  ret {| list_iterator := l; m := m it |}.

Definition Next (it : iterator) : M iterator :=
  match it with
  | IList l => l' <-- ListIterator_Next l ;; ret (IList l')
  | IMap l => l' <-- MapIterator_Next l ;; ret (IMap l')
  | IEmpty => ret IEmpty
  end.

Definition Finished (it : iterator) : M bool :=
  match it with
  | IList l => ListIterator_Finished l
  | IMap l => ListIterator_Finished (list_iterator l)
  | IEmpty => ret true
  end.

Definition Key (it : iterator) : M string :=
  match it with
  | IList l => ret EmptyString
  | IMap l => MapIterator_Key l
  | IEmpty => ret EmptyString
  end.

Definition Value (it : iterator) : M ConfigValue :=
  match it with
  | IList l => ListIterator_Value l
  | IMap l => MapIterator_Value l
  | IEmpty => ret {| v := HNil |}
  end.

Definition Index (it : iterator) : Z :=
  match it with
  | IList l => i l
  | IMap l => i (list_iterator l)
  | IEmpty => 0
  end.

Section Range.

(** The order in which [range] visits a string-keyed map. *)
Variable range_order : gmap string hval -> list (string * hval).

Fixpoint mapGetKeys_loop (entries : list (string * hval)) (a : loc) : M unit :=
  match entries with
  | [] => ret tt
  | (k, _) :: rest =>
      _ <-- slice_append a (HString k) ;;
      mapGetKeys_loop rest a
  end.

Definition mapGetKeys (m : option loc) : M (option loc) :=
  a <-- make_slice ;;
  g <-- strmap_contents m ;;
  _ <-- mapGetKeys_loop (range_order g) a ;;
  ret (Some a).

Definition Iterate (cv : ConfigValue) : M iterator :=
  let '(a, ok) := assertSlice (v cv) in
  if ok then ret (IList {| a := a; i := 0 |})
  else
    m <-- toStrMap (v cv) ;;
    match m with
    | Some _ =>
        keys <-- mapGetKeys m ;;
        ret (IMap {| list_iterator := {| a := keys; i := 0 |}; m := m |})
    | None => ret IEmpty
    end.

(** *** Sequences of calls

    A client holds the objects the package gave it in numbered registers
    and calls the package on them, one call after the other. *)

(** The accessors of [ConfigValue] that return plain data. *)
Inductive accessor : Type :=
| AIsSet | AIsSlice | AIsMap
| AInt | AString | AFloat | ABool | ARaw
| AMustInt | AMustString | AMustFloat | AMustBool
| ADefInt (def : Z) | ADefString (def : string)
| ADefFloat (def : float) | ADefBool (def : bool).

(** What a client observes of a result. *)
Inductive observation : Type :=
| ObsBool (b : bool)
| ObsInt (n : Z)
| ObsString (s : string)
| ObsFloat (f : float)
| ObsRaw (x : hval)
| ObsError (e : option error).

Definition coerce (f : accessor) (cv : ConfigValue) : list observation :=
  match f with
  | AIsSet => [ObsBool (IsSet cv)]
  | AIsSlice => [ObsBool (IsSlice cv)]
  | AIsMap => [ObsBool (IsMap cv)]
  | AInt => [ObsInt (Int cv)]
  | AString => [ObsString (String cv)]
  | AFloat => [ObsFloat (Float cv)]
  | ABool => [ObsBool (Bool cv)]
  | ARaw => [ObsRaw (Raw cv)]
  | AMustInt => [ObsInt (MustInt cv).1; ObsError (MustInt cv).2]
  | AMustString => [ObsString (MustString cv).1; ObsError (MustString cv).2]
  | AMustFloat => [ObsFloat (MustFloat cv).1; ObsError (MustFloat cv).2]
  | AMustBool => [ObsBool (MustBool cv).1; ObsError (MustBool cv).2]
  | ADefInt def => [ObsInt (DefInt cv def)]
  | ADefString def => [ObsString (DefString cv def)]
  | ADefFloat def => [ObsFloat (DefFloat cv def)]
  | ADefBool def => [ObsBool (DefBool cv def)]
  end.

Inductive obj : Type :=
| OConfig (c : Config)
| OValue (cv : ConfigValue)
| OIterator (it : iterator)
| OData (results : list observation).

Inductive call : Type :=
| CallGet (c : nat) (key : string)
| CallConfig (cv : nat)
| CallCoerce (f : accessor) (cv : nat)
| CallCount (cv : nat)
| CallIndex (it : nat)
| CallIterate (cv : nat)
| CallNext (it : nat)
| CallFinished (it : nat)
| CallKey (it : nat)
| CallValue (it : nat).

(** The store after computation [c], with the registers that [upd] gives
    for its result (unchanged after a panic). *)
Definition step {A : Type} (c : M A) (upd : A -> list obj) (regs : list obj)
  : M (list obj) :=
  fun s =>
    match c s with
    | (Ok x, s') => (Ok (upd x), s')
    | (Panic _, s') => (Ok regs, s')
    end.

(** One call: the result goes to a new register, except that [Next]
    updates the iterator in its register. A call on a register that does
    not hold an object of the right kind does nothing. *)
Definition exec (regs : list obj) (c : call) : M (list obj) :=
  match c with
  | CallGet n key =>
      match regs !! n with
      | Some (OConfig c) => step (Get c key) (fun x => regs ++ [OValue x]) regs
      | _ => ret regs
      end
  | CallConfig n =>
      match regs !! n with
      | Some (OValue cv) => step (ConfigOf cv) (fun x => regs ++ [OConfig x]) regs
      | _ => ret regs
      end
  | CallCoerce f n =>
      match regs !! n with
      | Some (OValue cv) => ret (regs ++ [OData (coerce f cv)])
      | _ => ret regs
      end
  | CallCount n =>
      match regs !! n with
      | Some (OValue cv) =>
          step (Count cv) (fun x => regs ++ [OData [ObsInt x]]) regs
      | _ => ret regs
      end
  | CallIndex n =>
      match regs !! n with
      | Some (OIterator it) => ret (regs ++ [OData [ObsInt (Index it)]])
      | _ => ret regs
      end
  | CallIterate n =>
      match regs !! n with
      | Some (OValue cv) =>
          step (Iterate cv) (fun x => regs ++ [OIterator x]) regs
      | _ => ret regs
      end
  | CallNext n =>
      match regs !! n with
      | Some (OIterator it) =>
          step (Next it) (fun x => <[n := OIterator x]> regs) regs
      | _ => ret regs
      end
  | CallFinished n =>
      match regs !! n with
      | Some (OIterator it) =>
          step (Finished it) (fun x => regs ++ [OData [ObsBool x]]) regs
      | _ => ret regs
      end
  | CallKey n =>
      match regs !! n with
      | Some (OIterator it) =>
          step (Key it) (fun x => regs ++ [OData [ObsString x]]) regs
      | _ => ret regs
      end
  | CallValue n =>
      match regs !! n with
      | Some (OIterator it) => step (Value it) (fun x => regs ++ [OValue x]) regs
      | _ => ret regs
      end
  end.

Fixpoint run (calls : list call) (regs : list obj) : M (list obj) :=
  match calls with
  | [] => ret regs
  | c :: rest => regs' <-- exec regs c ;; run rest regs'
  end.

End Range.

(** [s'] has every map and backing array of [s], with the same
    contents. *)
Definition unchanged (s s' : store) : Prop :=
  strmaps s ⊆ strmaps s' /\ imaps s ⊆ imaps s' /\ arrays s ⊆ arrays s'.

(** Computation [c] writes nothing that existed before it. *)
Definition frame {A : Type} (c : M A) : Prop :=
  forall s, unchanged s (c s).2.

End Heap.

(** ** The store embedding represents the tree embedding *)

(** [repr s x t]: in store [s] the value [x] unfolds to the tree [t]. *)
#[warnings="-register-all"]
Inductive repr (s : Heap.store) : Heap.hval -> iface -> Prop :=
| repr_nil : repr s Heap.HNil VNil
| repr_int n : repr s (Heap.HInt n) (VInt n)
| repr_string k : repr s (Heap.HString k) (VString k)
| repr_float f : repr s (Heap.HFloat f) (VFloat f)
| repr_bool b : repr s (Heap.HBool b) (VBool b)
| repr_other ty : repr s (Heap.HOther ty) (VOther ty)
| repr_slice_nil : repr s (Heap.HSlice None) (VSlice [])
| repr_slice r l ts :
    Heap.arrays s !! r = Some l ->
    Forall2 (repr s) l ts ->
    repr s (Heap.HSlice (Some r)) (VSlice ts)
| repr_strmap_nil : repr s (Heap.HStrMap None) (VStrMap None)
| repr_strmap r hg g :
    Heap.strmaps s !! r = Some hg ->
    (forall k, option_Forall2 (repr s) (hg !! k) (g !! k)) ->
    repr s (Heap.HStrMap (Some r)) (VStrMap (Some g))
| repr_imap_nil : repr s (Heap.HIMap None) (VIMap None)
| repr_imap r hl l :
    Heap.imaps s !! r = Some hl ->
    Forall2 (fun p q => repr s p.1 q.1 /\ repr s p.2 q.2) hl l ->
    repr s (Heap.HIMap (Some r)) (VIMap (Some l)).

(** ** Constructors

    The decoders, the file system and the Unicode case tables are not part
    of the package: they are the fields of [Externals]. *)

Definition JSON : string := "json".

Definition YAML : string := "yaml".

Class Externals : Type := {
  (** An [io.Reader]. *)
  Reader : Type;
  (** [yaml.Unmarshal(data, &m)] on an empty map [m]: the map afterwards
      and the error. *)
  yaml_Unmarshal : string -> StrMap * option error;
  (** [json.Unmarshal(data, &m)] on an empty map [m]. *)
  json_Unmarshal : string -> StrMap * option error;
  (** [os.Open]: the file, or the error. *)
  os_Open : string -> Reader + error;
  (** [ioutil.ReadAll]: the bytes read and the error. *)
  ioutil_ReadAll : Reader -> string * option error;
  (** [strings.Map(unicode.ToLower, s)], which [strings.ToLower] uses on
      strings that are not pure ASCII. *)
  unicode_ToLower : string -> string }.

(** [os.IsPathSeparator] on Unix. *)
Definition IsPathSeparator (c : Ascii.ascii) : bool := Ascii.eqb c "/".

(** [s[n:]]. *)
Fixpoint string_drop (n : nat) (s : string) : string :=
  match n, s with
  | O, _ => s
  | S n', String.String _ r => string_drop n' r
  | S _, EmptyString => EmptyString
  end.

(** The loop of [filepath.Ext], from index [n - 1] down to 0. *)
Fixpoint Ext_loop (path : string) (n : nat) : string :=
  match n with
  | O => EmptyString
  | S i =>
      match String.get i path with
      | Some c =>
          if IsPathSeparator c then EmptyString
          else if Ascii.eqb c "." then string_drop i path
          else Ext_loop path i
      | None => EmptyString
      end
  end.

(** [filepath.Ext]: the suffix from the last dot of the last path
    element, empty when that element has no dot. *)
Definition Ext (path : string) : string :=
  Ext_loop path (String.length path).

Definition is_ascii_byte (c : Ascii.ascii) : bool := (Ascii.nat_of_ascii c <? 128)%nat.

Definition is_upper (c : Ascii.ascii) : bool :=
  (65 <=? Ascii.nat_of_ascii c)%nat && (Ascii.nat_of_ascii c <=? 90)%nat.

Definition lower_byte (c : Ascii.ascii) : Ascii.ascii :=
  if is_upper c then Ascii.ascii_of_nat (Ascii.nat_of_ascii c + 32) else c.

Fixpoint string_forall (p : Ascii.ascii -> bool) (s : string) : bool :=
  match s with
  | EmptyString => true
  | String.String c r => p c && string_forall p r
  end.

Fixpoint string_map (f : Ascii.ascii -> Ascii.ascii) (s : string) : string :=
  match s with
  | EmptyString => EmptyString
  | String.String c r => String.String (f c) (string_map f r)
  end.

(** [strings.trimLeftByte]. *)
Fixpoint trimLeftByte (s : string) (c : Ascii.ascii) : string :=
  match s with
  | EmptyString => EmptyString
  | String.String x r => if Ascii.eqb x c then trimLeftByte r c else s
  end.

(** [strings.TrimLeft] for a cutset of one ASCII byte, the only kind this
    package uses; other cutsets are not modelled. *)
Definition TrimLeft (s cutset : string) : string :=
  match cutset with
  | String.String c EmptyString => trimLeftByte s c
  | _ => s
  end.

Section Constructors.

Context {E : Externals}.

(** [strings.ToLower]: bytewise on a pure ASCII string. *)
Definition ToLower (s : string) : string :=
  if string_forall is_ascii_byte s then
    if negb (string_forall (fun c => negb (is_upper c)) s)
    then string_map lower_byte s
    else s
  else unicode_ToLower s.

Definition NewConfigFromYaml (data : string) : option Config * option error :=
  let '(m, err) := yaml_Unmarshal data in
  match err with
  | Some e => (None, Some e)
  | None => (Some (NewConfig m), None)
  end.

Definition NewConfigFromJson (data : string) : option Config * option error :=
  let '(m, err) := json_Unmarshal data in
  match err with
  | Some e => (None, Some e)
  | None => (Some (NewConfig m), None)
  end.

Definition NewConfigFromReader (r : Reader) (format : string)
  : option Config * option error :=
  let '(data, err) := ioutil_ReadAll r in
  match err with
  | Some e => (None, Some e)
  | None =>
      if String.eqb format JSON then NewConfigFromJson data
      else if String.eqb format YAML then NewConfigFromYaml data
      else (None, Some (Errorf ("Unknown config format: '" +:+ format +:+ "'")))
  end.

Definition NewConfigFromFile (filename : string) : option Config * option error :=
  match os_Open filename with
  | inr e => (None, Some e)
  | inl f =>
      let ext := TrimLeft (ToLower (Ext filename)) "." in
      NewConfigFromReader f ext
  end.

End Constructors.

(** A toy environment: a file is its name's content in a two-file disk,
    and every decoder accepts exactly the text [{}]. *)
Definition sample_decoder (data : string) : StrMap * option error :=
  if String.eqb data "{}" then (Some ∅, None)
  else (Some ∅, Some (Errorf "syntax error")).

Definition sample_externals : Externals := {|
  Reader := string;
  yaml_Unmarshal := sample_decoder;
  json_Unmarshal := sample_decoder;
  os_Open := fun name =>
    if String.eqb name "missing.json" then inr (Errorf "no such file")
    else inl "{}"%string;
  ioutil_ReadAll := fun r => (r, None);
  unicode_ToLower := fun s => s |}.

(** ** Reference definitions for sections *)

(** No key of the map contains the separator. *)
Definition keys_dot_free (m0 : StrMap) : Prop :=
  forall k, is_Some (default ∅ m0 !! k) -> dot_free k = true.

(** A string-keyed map written as an interface-keyed map, entry by
    entry. *)
Definition as_imap (entries : list (string * iface)) : iface :=
  VIMap (Some ((fun kv => (VString kv.1, kv.2)) <$> entries)).

(** A byte that may occur in an extension after its dot: neither a path
    separator nor a dot. *)
Definition ext_byte (c : Ascii.ascii) : bool :=
  negb (IsPathSeparator c) && negb (Ascii.eqb c ".").

(** Exactly one of the configuration and the error is nil. *)
Definition config_xor_error (p : option Config * option error) : Prop :=
  match p with
  | (Some _, None) | (None, Some _) => True
  | _ => False
  end.

(** * Properties *)

(** ** Typed accessors *)

Ltac by_value cv :=
  destruct cv as [x]; destruct x; simpl in *;
  try discriminate; try congruence; eauto.

(** C3. The plain accessors [Int], [String], [Float] and [Bool] return the
    underlying value unchanged when it has the requested type, and the zero
    value of that type ([0], the empty string, [0.0], [false]) in every
    other case, the unset nil value included. *)
Theorem plain_accessors_zero_on_mismatch (cv : ConfigValue) :
  ((forall n, v cv = VInt n -> Int cv = n) /\
   ((forall n, v cv <> VInt n) -> Int cv = 0)) /\
  ((forall s, v cv = VString s -> String cv = s) /\
   ((forall s, v cv <> VString s) -> String cv = EmptyString)) /\
  ((forall f, v cv = VFloat f -> Float cv = f) /\
   ((forall f, v cv <> VFloat f) -> Float cv = 0%float)) /\
  ((forall b, v cv = VBool b -> Bool cv = b) /\
   ((forall b, v cv <> VBool b) -> Bool cv = false)).
Proof.
  unfold Int, String, Float, Bool.
  repeat split; intros; by_value cv;
    match goal with H : forall y, _ <> _ |- _ => exfalso; eapply H; reflexivity end.
Qed.

Lemma plain_accessors_zero_on_mismatch_witness :
  Int {| v := VInt 7 |} = 7 /\ Int {| v := VNil |} = 0 /\
  String {| v := VInt 7 |} = EmptyString /\
  Float {| v := VString "x" |} = 0%float /\
  Bool {| v := VBool true |} = true.
Proof.
  refine (conj _ (conj _ (conj _ (conj _ _)))).
  - apply (plain_accessors_zero_on_mismatch {| v := VInt 7 |}). reflexivity.
  - apply (plain_accessors_zero_on_mismatch {| v := VNil |}). discriminate.
  - apply (plain_accessors_zero_on_mismatch {| v := VInt 7 |}). discriminate.
  - apply (plain_accessors_zero_on_mismatch {| v := VString "x" |}). discriminate.
  - apply (plain_accessors_zero_on_mismatch {| v := VBool true |}). reflexivity.
Defined.

(** C4. Each "must" accessor returns the underlying value with a nil error
    exactly when the value has the requested type; it returns the zero
    value with an error when the value is nil (not set) and when it is set
    with another type. So the error is non-nil if and only if the value
    does not have the requested type. *)
Theorem must_accessors_error_iff_mismatch (cv : ConfigValue) :
  ((forall n, MustInt cv = (n, None) <-> v cv = VInt n) /\
   (v cv = VNil -> MustInt cv = (0, Some (Errorf "Value is not set"))) /\
   (v cv <> VNil -> (forall n, v cv <> VInt n) ->
      MustInt cv = (0, Some (Errorf "Value is not int"))) /\
   ((MustInt cv).2 <> None <-> forall n, v cv <> VInt n)) /\
  ((forall s, MustString cv = (s, None) <-> v cv = VString s) /\
   (v cv = VNil -> MustString cv = (EmptyString, Some (Errorf "Value is not set"))) /\
   (v cv <> VNil -> (forall s, v cv <> VString s) ->
      MustString cv = (EmptyString, Some (Errorf "Value is not string"))) /\
   ((MustString cv).2 <> None <-> forall s, v cv <> VString s)) /\
  ((forall f, MustFloat cv = (f, None) <-> v cv = VFloat f) /\
   (v cv = VNil -> MustFloat cv = (0%float, Some (Errorf "Value is not set"))) /\
   (v cv <> VNil -> (forall f, v cv <> VFloat f) ->
      MustFloat cv = (0%float, Some (Errorf "Value is not float"))) /\
   ((MustFloat cv).2 <> None <-> forall f, v cv <> VFloat f)) /\
  ((forall b, MustBool cv = (b, None) <-> v cv = VBool b) /\
   (v cv = VNil -> MustBool cv = (false, Some (Errorf "Value is not set"))) /\
   (v cv <> VNil -> (forall b, v cv <> VBool b) ->
      MustBool cv = (false, Some (Errorf "Value is not bool"))) /\
   ((MustBool cv).2 <> None <-> forall b, v cv <> VBool b)).
Proof.
  unfold MustInt, MustString, MustFloat, MustBool, IsSet.
  destruct cv as [x]; destruct x; simpl;
    repeat split; intros; try discriminate; try congruence;
    try (exfalso; eauto; fail);
    match goal with H : forall y, _ <> _ |- _ => exfalso; eapply H; reflexivity end.
Qed.

Lemma must_accessors_error_iff_mismatch_witness :
  MustInt {| v := VInt 7 |} = (7, None) /\
  MustInt {| v := VNil |} = (0, Some (Errorf "Value is not set")) /\
  MustInt {| v := VBool true |} = (0, Some (Errorf "Value is not int")).
Proof.
  refine (conj _ (conj _ _)).
  - apply (must_accessors_error_iff_mismatch {| v := VInt 7 |}). reflexivity.
  - apply (must_accessors_error_iff_mismatch {| v := VNil |}). reflexivity.
  - apply (must_accessors_error_iff_mismatch {| v := VBool true |});
      simpl; discriminate.
Defined.

(** C5. Each "default" accessor returns the underlying value when it has
    the requested type and the given default in every other case, the
    unset nil value included. *)
Theorem default_accessors (cv : ConfigValue) :
  (forall def : Z,
     (forall n, v cv = VInt n -> DefInt cv def = n) /\
     ((forall n, v cv <> VInt n) -> DefInt cv def = def)) /\
  (forall def : string,
     (forall s, v cv = VString s -> DefString cv def = s) /\
     ((forall s, v cv <> VString s) -> DefString cv def = def)) /\
  (forall def : float,
     (forall f, v cv = VFloat f -> DefFloat cv def = f) /\
     ((forall f, v cv <> VFloat f) -> DefFloat cv def = def)) /\
  (forall def : bool,
     (forall b, v cv = VBool b -> DefBool cv def = b) /\
     ((forall b, v cv <> VBool b) -> DefBool cv def = def)).
Proof.
  unfold DefInt, DefString, DefFloat, DefBool.
  repeat split; intros; by_value cv;
    match goal with H : forall y, _ <> _ |- _ => exfalso; eapply H; reflexivity end.
Qed.

Lemma default_accessors_witness :
  DefInt {| v := VInt 7 |} 3306 = 7 /\ DefInt {| v := VNil |} 3306 = 3306 /\
  DefString {| v := VInt 7 |} "127.0.0.1" = "127.0.0.1"%string.
Proof.
  refine (conj _ (conj _ _)).
  - apply (default_accessors {| v := VInt 7 |}). reflexivity.
  - apply (default_accessors {| v := VNil |}). discriminate.
  - apply (default_accessors {| v := VInt 7 |}). discriminate.
Defined.

(** ** Dotted-key lookup *)

Lemma getValueWithCompositeKey_step (m : StrMap) (keyChunks : list string)
    (current : Z) :
  0 <= current < Z.of_nat (length keyChunks) ->
  getValueWithCompositeKey m keyChunks current =
    let data := (mapIndex m (nth (Z.to_nat current) keyChunks EmptyString)).1 in
    if current =? Z.of_nat (length keyChunks) - 1 then Ok data
    else match toStrMap data with
         | Some g => getValueWithCompositeKey (Some g) keyChunks (current + 1)
         | None => Ok VNil
         end.
Proof.
  intros Hin. rewrite getValueWithCompositeKey_equation_1.
  destruct (decide (0 <= current < Z.of_nat (length keyChunks))) as [Hl|Hout];
    [|contradiction].
  cbn. destruct (current =? _); [reflexivity|].
  destruct (toStrMap _); reflexivity.
Qed.

Lemma getValueWithCompositeKey_out_of_range (m : StrMap)
    (keyChunks : list string) (current : Z) :
  ~ 0 <= current < Z.of_nat (length keyChunks) ->
  getValueWithCompositeKey m keyChunks current = Panic "index out of range".
Proof.
  intros Hout. rewrite getValueWithCompositeKey_equation_1.
  destruct (decide (0 <= current < Z.of_nat (length keyChunks)));
    [contradiction|reflexivity].
Qed.

(** From index [length done] on, the lookup is the descent along the
    remaining chunks. *)
Lemma getValueWithCompositeKey_resolve_path (rest : list string) :
  forall (done : list string) (m : StrMap),
    rest <> [] ->
    getValueWithCompositeKey m (done ++ rest) (Z.of_nat (length done)) =
      Ok (resolve_path m rest).
Proof.
  induction rest as [|k rest IH]; intros done m Hne; [congruence|].
  rewrite getValueWithCompositeKey_step
    by (rewrite length_app; simpl; lia).
  rewrite Nat2Z.id, app_nth2, Nat.sub_diag by lia. cbn [nth].
  cbv zeta. rewrite length_app. cbn [length].
  destruct rest as [|k' rest]; cbn [length].
  - replace (_ =? _) with true by (symmetry; apply Z.eqb_eq; lia).
    reflexivity.
  - replace (_ =? _) with false
      by (symmetry; apply Z.eqb_neq; cbn [length]; lia).
    cbn [resolve_path].
    assert (Hstep : forall g,
      getValueWithCompositeKey (Some g) (done ++ k :: k' :: rest)
        (Z.of_nat (length done) + 1) = Ok (resolve_path (Some g) (k' :: rest))).
    { intros g.
      replace (done ++ k :: k' :: rest) with ((done ++ [k]) ++ k' :: rest)
        by (rewrite <- app_assoc; reflexivity).
      replace (Z.of_nat (length done) + 1) with (Z.of_nat (length (done ++ [k])))
        by (rewrite length_app; simpl; lia).
      apply IH. discriminate. }
    destruct (mapIndex m k) as [x [|]] eqn:Hk; cbn [fst].
    + destruct (toStrMap x); [apply Hstep|reflexivity].
    + assert (x = VNil) as ->.
      { unfold mapIndex in Hk. destruct m as [g|]; [destruct (g !! k)|];
          congruence. }
      reflexivity.
Qed.

Lemma splitByte_nonempty (c : Ascii.ascii) (s : string) : splitByte c s <> [].
Proof.
  induction s as [|x r IH]; simpl; [discriminate|].
  destruct (Ascii.eqb x c); [discriminate|].
  destruct (splitByte c r); discriminate.
Qed.

Lemma Split_SEP_nonempty (key : string) : Split key SEP <> [].
Proof. apply splitByte_nonempty. Qed.

(** [Get] never panics, and its result is the reference resolution. *)
Lemma Get_resolve (c : Config) (key : string) :
  Get c key = Ok {| v := resolve c key |}.
Proof.
  unfold Get, resolve.
  destruct (mapIndex (data c) key) as [x [|]]; [reflexivity|].
  assert (Hpath : getValueWithCompositeKey (data c) (Split key SEP) 0 =
                  Ok (resolve_path (data c) (Split key SEP)))
    by exact (getValueWithCompositeKey_resolve_path (Split key SEP) [] (data c)
                (Split_SEP_nonempty key)).
  rewrite Hpath. reflexivity.
Qed.

(** C1. [Get] returns the value stored under the literal key when the
    top-level map has that key; otherwise it splits the key on "." and
    descends through the nested string-keyed maps segment by segment,
    returning the value under the last segment, and nil as soon as an
    intermediate segment is absent or its value is not viewable as a
    string-keyed map ([resolve_path]). It never panics. *)
Theorem Get_resolves (c : Config) (key : string) :
  Get c key = Ok {| v := resolve c key |} /\
  (forall x, mapIndex (data c) key = (x, true) ->
     Get c key = Ok {| v := x |}) /\
  ((mapIndex (data c) key).2 = false ->
     Get c key = Ok {| v := resolve_path (data c) (Split key SEP) |}).
Proof.
  rewrite Get_resolve. unfold resolve.
  refine (conj eq_refl (conj _ _)).
  - intros x ->. reflexivity.
  - destruct (mapIndex (data c) key) as [x [|]]; [discriminate|reflexivity].
Qed.

Lemma Get_resolves_witness :
  let account : gmap string iface :=
    {[ "login"%string := VString "db_user";
       "password"%string := VString "xxxxxxx" ]} in
  let db : gmap string iface :=
    {[ "host"%string := VString "192.168.0.1";
       "account"%string := VStrMap (Some account);
       "tables"%string :=
         VSlice [VString "posts"; VString "comments"; VString "likes"] ]} in
  let conf := NewConfig (Some {[ "db"%string := VStrMap (Some db);
                                 "db.host"%string := VString "literal" ]}) in
  Get conf "db.host" = Ok {| v := VString "literal" |} /\
  Get conf "db.account.login" = Ok {| v := VString "db_user" |} /\
  Get conf "db.port" = Ok {| v := VNil |} /\
  Get conf "db.host.name" = Ok {| v := VNil |}.
Proof.
  intros account db conf.
  refine (conj _ (conj _ (conj _ _))).
  - destruct (Get_resolves conf "db.host") as (_ & Hliteral & _).
    apply Hliteral. vm_compute. reflexivity.
  - destruct (Get_resolves conf "db.account.login") as (_ & _ & Hpath).
    rewrite Hpath by (vm_compute; reflexivity). vm_compute. reflexivity.
  - destruct (Get_resolves conf "db.port") as (_ & _ & Hpath).
    rewrite Hpath by (vm_compute; reflexivity). vm_compute. reflexivity.
  - destruct (Get_resolves conf "db.host.name") as (_ & _ & Hpath).
    rewrite Hpath by (vm_compute; reflexivity). vm_compute. reflexivity.
Defined.

(** *** Depth of the descent *)

Lemma splitByte_dot_free (k : string) :
  dot_free k = true -> splitByte "." k = [k].
Proof.
  induction k as [|c r IH]; simpl; [reflexivity|].
  intros [Hc Hr]%andb_prop. apply negb_true_iff in Hc. rewrite Hc.
  rewrite IH by assumption. reflexivity.
Qed.

Lemma splitByte_dot_free_app (k s : string) :
  dot_free k = true ->
  splitByte "." (k +:+ String.String "." s) = k :: splitByte "." s.
Proof.
  induction k as [|c r IH]; intros Hfree.
  - simpl. reflexivity.
  - simpl in Hfree. apply andb_prop in Hfree as [Hc Hr].
    apply negb_true_iff in Hc.
    change (String.String c r +:+ String.String "." s)
      with (String.String c (r +:+ String.String "." s)).
    cbn [splitByte]. rewrite Hc, IH by assumption. reflexivity.
Qed.

Lemma join_cons (k k' : string) (rest : list string) :
  join (k :: k' :: rest) = k +:+ String.String "." (join (k' :: rest)).
Proof. reflexivity. Qed.

Lemma Split_join (ks : list string) :
  ks <> [] -> Forall (fun k => dot_free k = true) ks ->
  Split (join ks) SEP = ks.
Proof.
  unfold Split, SEP.
  induction ks as [|k rest IH]; intros Hne Hfree; [congruence|].
  apply Forall_cons in Hfree as [Hk Hrest].
  destruct rest as [|k' rest]; [apply splitByte_dot_free, Hk|].
  rewrite join_cons, splitByte_dot_free_app by assumption.
  f_equal. apply IH; [discriminate|assumption].
Qed.

Lemma dot_free_app_SEP (k s : string) :
  dot_free (k +:+ String.String "." s) = false.
Proof.
  induction k as [|c r IH]; [reflexivity|].
  change (String.String c r +:+ String.String "." s)
    with (String.String c (r +:+ String.String "." s)).
  cbn [dot_free]. rewrite IH. apply andb_false_r.
Qed.

Lemma toStrMap_nest (k : string) (rest : list string) (x : iface) :
  toStrMap (nest (k :: rest) x) = Some {[ k := nest rest x ]}.
Proof. reflexivity. Qed.

Lemma mapIndex_singleton (k : string) (x : iface) :
  mapIndex (Some {[ k := x ]}) k = (x, true).
Proof. unfold mapIndex. rewrite lookup_singleton_eq. reflexivity. Qed.

Lemma mapIndex_singleton_ne (k k' : string) (x : iface) :
  k <> k' -> mapIndex (Some {[ k := x ]}) k' = (VNil, false).
Proof.
  intros Hne. unfold mapIndex. rewrite lookup_singleton_ne by assumption.
  reflexivity.
Qed.

Lemma resolve_path_nest (ks : list string) (x : iface) :
  ks <> [] -> resolve_path (toStrMap (nest ks x)) ks = x.
Proof.
  induction ks as [|k rest IH]; intros Hne; [congruence|].
  rewrite toStrMap_nest. cbn [resolve_path].
  rewrite mapIndex_singleton.
  destruct rest as [|k' rest]; [reflexivity|].
  rewrite toStrMap_nest, <- (toStrMap_nest k' rest x).
  apply IH. discriminate.
Qed.

(** C2, as the code has it. The descent is not limited to two levels: a
    dotted key of [n] dot-free segments, for any [n >= 1], splits into
    those [n] segments and resolves through [n] levels of nested maps. *)
Theorem Get_resolves_any_depth (ks : list string) (x : iface) :
  ks <> [] -> Forall (fun k => dot_free k = true) ks ->
  Split (join ks) SEP = ks /\
  Get (NewConfig (toStrMap (nest ks x))) (join ks) = Ok {| v := x |}.
Proof.
  intros Hne Hfree. split; [apply Split_join; assumption|].
  rewrite Get_resolve. unfold resolve, NewConfig. cbn [data].
  destruct ks as [|k rest]; [congruence|].
  destruct rest as [|k' rest].
  - rewrite toStrMap_nest. cbn [join]. rewrite mapIndex_singleton. reflexivity.
  - rewrite Split_join by assumption.
    rewrite (toStrMap_nest k (k' :: rest) x) at 1.
    rewrite mapIndex_singleton_ne.
    + rewrite resolve_path_nest by discriminate. reflexivity.
    + intros Heq. apply Forall_cons in Hfree as [Hk _].
      assert (Hdot : dot_free (join (k :: k' :: rest)) = false)
        by (rewrite join_cons; apply dot_free_app_SEP).
      congruence.
Qed.

Lemma Get_resolves_any_depth_witness :
  Split "a.b.c" SEP = ["a"; "b"; "c"]%string /\
  Get (NewConfig (toStrMap (nest ["a"; "b"; "c"]%string (VInt 1)))) "a.b.c" =
    Ok {| v := VInt 1 |}.
Proof.
  apply (Get_resolves_any_depth ["a"; "b"; "c"]%string (VInt 1)).
  - discriminate.
  - repeat constructor.
Defined.

(** C2, as stated, fails: a key of three segments that is not a literal
    key of the top-level map resolves to a set value three levels deep. *)
Lemma two_level_lookup_counterexample :
  ~ (forall (c : Config) (key : string) (cv : ConfigValue),
       (mapIndex (data c) key).2 = false ->
       Get c key = Ok cv -> IsSet cv = true ->
       (length (Split key SEP) <= 2)%nat).
Proof.
  intros Hclaim.
  specialize (Hclaim
    (NewConfig (toStrMap (nest ["a"; "b"; "c"]%string (VInt 1))))
    "a.b.c"%string {| v := VInt 1 |}).
  assert (Hlen : (3 <= 2)%nat); [|lia].
  apply Hclaim; vm_compute; reflexivity.
Qed.

(** ** List iterator *)

Lemma ListIterator_Finished_spec (it : ListIterator) :
  ListIterator_Finished it = true <-> i it = Z.of_nat (length (a it)).
Proof. unfold ListIterator_Finished. apply Z.eqb_eq. Qed.

Lemma ListIterator_Next_finished (it : ListIterator) :
  ListIterator_Finished it = true -> ListIterator_Next it = it.
Proof. intros Hfin. unfold ListIterator_Next. rewrite Hfin. reflexivity. Qed.

Lemma ListIterator_Next_slice (it : ListIterator) :
  a (ListIterator_Next it) = a it.
Proof.
  unfold ListIterator_Next. destruct (ListIterator_Finished it); reflexivity.
Qed.

Lemma ListIterator_Next_bounds (it : ListIterator) :
  0 <= i it <= Z.of_nat (length (a it)) ->
  0 <= i (ListIterator_Next it) <= Z.of_nat (length (a (ListIterator_Next it))).
Proof.
  intros Hinv. unfold ListIterator_Next.
  destruct (ListIterator_Finished it) eqn:Hfin; cbn [negb a i]; [assumption|].
  assert (i it <> Z.of_nat (length (a it)))
    by (rewrite <- ListIterator_Finished_spec; congruence).
  lia.
Qed.

Lemma ListIterator_iter_Next_bounds (n : nat) (it : ListIterator) :
  0 <= i it <= Z.of_nat (length (a it)) ->
  a (Nat.iter n ListIterator_Next it) = a it /\
  0 <= i (Nat.iter n ListIterator_Next it) <= Z.of_nat (length (a it)).
Proof.
  intros Hinv. induction n as [|n [IHa IHi]]; [split; [reflexivity|assumption]|].
  change (Nat.iter (S n) ListIterator_Next it)
    with (ListIterator_Next (Nat.iter n ListIterator_Next it)).
  split.
  - rewrite ListIterator_Next_slice. assumption.
  - rewrite <- IHa in IHi |- *.
    rewrite <- (ListIterator_Next_slice (Nat.iter n ListIterator_Next it)).
    apply ListIterator_Next_bounds. assumption.
Qed.

Lemma sliceIndex_in_range {A : Type} (l : list A) (k : Z) :
  0 <= k < Z.of_nat (length l) ->
  exists x, l !! Z.to_nat k = Some x /\ sliceIndex l k = Ok x.
Proof.
  intros Hin. unfold sliceIndex.
  replace (0 <=? k) with true by (symmetry; apply Z.leb_le; lia).
  replace (k <? Z.of_nat (length l)) with true
    by (symmetry; apply Z.ltb_lt; lia).
  destruct (lookup_lt_is_Some_2 l (Z.to_nat k)) as [x Hx]; [lia|].
  exists x. rewrite Hx. split; reflexivity.
Qed.

Lemma sliceIndex_out_of_range {A : Type} (l : list A) (k : Z) :
  ~ 0 <= k < Z.of_nat (length l) ->
  sliceIndex l k = Panic "index out of range".
Proof.
  intros Hout. unfold sliceIndex.
  destruct (0 <=? k) eqn:Hlo; [|reflexivity].
  destruct (k <? Z.of_nat (length l)) eqn:Hhi; [|reflexivity].
  apply Z.leb_le in Hlo. apply Z.ltb_lt in Hhi. lia.
Qed.

(** C8. [Next] never moves a list iterator past the end: on a finished
    iterator it changes nothing, it keeps [0 <= i <= len(a)], and so every
    iterator obtained from index 0 by any number of [Next] calls satisfies
    that bound. [Value] on a finished iterator indexes the slice out of
    bounds and panics; on an iterator within bounds that is not finished it
    returns the element at the index. *)
Theorem ListIterator_index_bounded (it : ListIterator) :
  (ListIterator_Finished it = true ->
     ListIterator_Next it = it /\
     ListIterator_Value it = Panic "index out of range") /\
  (0 <= i it <= Z.of_nat (length (a it)) ->
     a (ListIterator_Next it) = a it /\
     0 <= i (ListIterator_Next it) <= Z.of_nat (length (a it))) /\
  (i it = 0 -> forall n : nat,
     a (Nat.iter n ListIterator_Next it) = a it /\
     0 <= i (Nat.iter n ListIterator_Next it) <= Z.of_nat (length (a it))) /\
  (0 <= i it <= Z.of_nat (length (a it)) ->
     ListIterator_Finished it = false ->
     exists x, a it !! Z.to_nat (i it) = Some x /\
               ListIterator_Value it = Ok {| v := x |}).
Proof.
  refine (conj _ (conj _ (conj _ _))).
  - intros Hfin. split; [apply ListIterator_Next_finished, Hfin|].
    apply ListIterator_Finished_spec in Hfin.
    unfold ListIterator_Value. rewrite sliceIndex_out_of_range by lia.
    reflexivity.
  - intros Hinv. split; [apply ListIterator_Next_slice|].
    rewrite <- (ListIterator_Next_slice it).
    apply ListIterator_Next_bounds, Hinv.
  - intros Hzero n. apply ListIterator_iter_Next_bounds. lia.
  - intros Hinv Hfin.
    assert (i it <> Z.of_nat (length (a it)))
      by (rewrite <- ListIterator_Finished_spec; congruence).
    destruct (sliceIndex_in_range (a it) (i it)) as (x & Hx & Hidx); [lia|].
    exists x. split; [assumption|].
    unfold ListIterator_Value. rewrite Hidx. reflexivity.
Qed.

Lemma ListIterator_index_bounded_witness :
  let it := {| a := [VInt 1; VInt 2]; i := 0 |} in
  let last := Nat.iter 5 ListIterator_Next it in
  (a last = a it /\ 0 <= i last <= 2) /\
  (ListIterator_Next last = last /\
   ListIterator_Value last = Panic "index out of range") /\
  (exists x, a it !! Z.to_nat (i it) = Some x /\
             ListIterator_Value it = Ok {| v := x |}).
Proof.
  intros it last.
  refine (conj _ (conj _ _)).
  - apply (ListIterator_index_bounded it). reflexivity.
  - apply (ListIterator_index_bounded last). reflexivity.
  - apply (ListIterator_index_bounded it); [simpl; lia|reflexivity].
Defined.

(** ** Conversion to a string-keyed map *)

Lemma toStrMap_loop_strings (entries : list (iface * iface)) :
  forall strMap : gmap string iface,
    all_string_keys entries = true ->
    toStrMap_loop entries strMap =
      Some (foldl (fun acc kv => <[kv.1 := kv.2]> acc) strMap
              (string_entries entries)).
Proof.
  induction entries as [|[k x] rest IH]; intros strMap Hall; [reflexivity|].
  simpl in Hall. apply andb_prop in Hall as [Hk Hrest].
  destruct k; try discriminate. simpl. apply IH, Hrest.
Qed.

Lemma toStrMap_loop_other_key (entries : list (iface * iface)) :
  forall strMap : gmap string iface,
    all_string_keys entries = false -> toStrMap_loop entries strMap = None.
Proof.
  induction entries as [|[k x] rest IH]; intros strMap Hall; [discriminate|].
  simpl in Hall. destruct k; simpl in *; try reflexivity. apply IH, Hall.
Qed.

Lemma foldl_insert_list_to_map (l : list (string * iface)) :
  forall acc : gmap string iface,
    foldl (fun acc kv => <[kv.1 := kv.2]> acc) acc l =
      list_to_map (reverse l) ∪ acc.
Proof.
  induction l as [|[k x] l IH]; intros acc.
  - simpl. rewrite (left_id_L ∅ (∪)). reflexivity.
  - simpl. rewrite IH, reverse_cons, list_to_map_app. simpl.
    rewrite <- (assoc_L (∪)), insert_empty, <- insert_union_singleton_l.
    reflexivity.
Qed.

(** What [toStrMap] returns, by dynamic type: a string-keyed map itself
    (nil when it is nil); for an interface-keyed map the string-keyed map
    of its entries when every key is a string (later entries of the range
    order win) and nil otherwise; nil for every other value. *)
Lemma toStrMap_spec (value : iface) :
  toStrMap value =
    match value with
    | VStrMap m => m
    | VIMap asIMap =>
        if all_string_keys (default [] asIMap)
        then Some (list_to_map (reverse (string_entries (default [] asIMap))))
        else None
    | _ => None
    end.
Proof.
  destruct value; try reflexivity.
  unfold toStrMap. cbn.
  destruct (all_string_keys (default [] m0)) eqn:Hall.
  - rewrite toStrMap_loop_strings, foldl_insert_list_to_map by assumption.
    rewrite (right_id_L ∅ (∪)). reflexivity.
  - apply toStrMap_loop_other_key, Hall.
Qed.

Lemma string_entries_elem (entries : list (iface * iface)) (k : string)
    (x : iface) :
  (k, x) ∈ string_entries entries <-> (VString k, x) ∈ entries.
Proof.
  unfold string_entries. rewrite list_elem_of_omap. split.
  - intros ([k' x'] & Hin & Heq). simpl in Heq.
    destruct k'; try discriminate. injection Heq as -> ->. assumption.
  - intros Hin. exists (VString k, x). split; [assumption|reflexivity].
Qed.

Lemma string_entries_keys (entries : list (iface * iface)) :
  all_string_keys entries = true ->
  VString <$> (string_entries entries).*1 = entries.*1.
Proof.
  induction entries as [|[k x] rest IH]; intros Hall; [reflexivity|].
  simpl in Hall. apply andb_prop in Hall as [Hk Hrest].
  destruct k; try discriminate. simpl. f_equal. apply IH, Hrest.
Qed.

Lemma string_entries_distinct (entries : list (iface * iface)) :
  all_string_keys entries = true -> distinct_keys entries ->
  NoDup (string_entries entries).*1.
Proof.
  intros Hall Hdistinct. unfold distinct_keys in Hdistinct.
  rewrite <- string_entries_keys in Hdistinct by assumption.
  eapply NoDup_fmap_1, Hdistinct.
Qed.

(** For a well-formed interface-keyed map with string keys only, the
    converted map has exactly the entries of the original. *)
Lemma toStrMap_entries (asIMap : option (list (iface * iface))) :
  all_string_keys (default [] asIMap) = true ->
  distinct_keys (default [] asIMap) ->
  exists g, toStrMap (VIMap asIMap) = Some g /\
    forall k x, g !! k = Some x <-> (VString k, x) ∈ default [] asIMap.
Proof.
  intros Hall Hdistinct. rewrite toStrMap_spec, Hall.
  eexists. split; [reflexivity|]. intros k x.
  rewrite <- string_entries_elem, <- elem_of_list_to_map.
  - rewrite elem_of_reverse. reflexivity.
  - rewrite fmap_reverse, reverse_Permutation.
    apply string_entries_distinct; assumption.
Qed.

(** ** Iterate *)

Lemma mapGetKeys_eq (range_order : gmap string iface -> list (string * iface))
    (g : gmap string iface) :
  mapGetKeys range_order g = VString <$> (range_order g).*1.
Proof.
  unfold mapGetKeys.
  assert (Hloop : forall (l : list (string * iface)) (acc : list iface),
    foldl (fun a0 '(k, _) => a0 ++ [VString k]) acc l = acc ++ (VString <$> l.*1)).
  { induction l as [|[k x] l IH]; intros acc; simpl.
    - rewrite app_nil_r. reflexivity.
    - rewrite IH, <- app_assoc. reflexivity. }
  apply Hloop.
Qed.

Lemma Iterate_cases (range_order : gmap string iface -> list (string * iface))
    (cv : ConfigValue) :
  Iterate range_order cv =
    match v cv with
    | VSlice a0 => IList {| a := a0; i := 0 |}
    | x =>
        match toStrMap x with
        | Some g =>
            IMap {| list_iterator := {| a := mapGetKeys range_order g; i := 0 |};
                    m := Some g |}
        | None => IEmpty mkEmptyIterator
        end
    end.
Proof. destruct cv as [x]. destruct x; reflexivity. Qed.

(** C6, as the code has it. [Iterate] returns one of three iterators: a
    list iterator at index 0 over the elements when the value is a slice; a
    map iterator over the keys and entries when the value is a non-nil
    string-keyed map, or an interface-keyed map (nil or not) whose keys are
    all strings; and in every other case, a nil string-keyed map included,
    the empty iterator, which is finished at once, is unchanged by [Next],
    and has the nil value, the empty key and index 0. *)
Theorem Iterate_variants
    (range_order : gmap string iface -> list (string * iface))
    (cv : ConfigValue) :
  (forall a0, v cv = VSlice a0 ->
     Iterate range_order cv = IList {| a := a0; i := 0 |}) /\
  (forall g, v cv = VStrMap (Some g) ->
     Iterate range_order cv =
       IMap {| list_iterator := {| a := VString <$> (range_order g).*1; i := 0 |};
               m := Some g |}) /\
  (forall asIMap, v cv = VIMap asIMap ->
     all_string_keys (default [] asIMap) = true ->
     let g := list_to_map (reverse (string_entries (default [] asIMap))) in
     Iterate range_order cv =
       IMap {| list_iterator := {| a := VString <$> (range_order g).*1; i := 0 |};
               m := Some g |}) /\
  ((forall a0, v cv <> VSlice a0) ->
   (forall g, v cv <> VStrMap (Some g)) ->
   (forall asIMap, v cv = VIMap asIMap ->
      all_string_keys (default [] asIMap) = false) ->
   Iterate range_order cv = IEmpty mkEmptyIterator) /\
  (forall e : EmptyIterator,
     Finished (IEmpty e) = true /\ Next (IEmpty e) = IEmpty e /\
     Value (IEmpty e) = Ok {| v := VNil |} /\
     Key (IEmpty e) = Ok EmptyString /\ Index (IEmpty e) = 0).
Proof.
  rewrite Iterate_cases.
  refine (conj _ (conj _ (conj _ (conj _ _)))).
  - intros a0 ->. reflexivity.
  - intros g ->. simpl. rewrite mapGetKeys_eq. reflexivity.
  - intros asIMap -> Hall g. rewrite toStrMap_spec, Hall, mapGetKeys_eq.
    reflexivity.
  - intros Hslice Hmap Himap.
    destruct (v cv) as [| | | | |a0|[g|]|asIMap|]; try reflexivity.
    + destruct (Hslice a0). reflexivity.
    + destruct (Hmap g). reflexivity.
    + rewrite toStrMap_spec, (Himap asIMap) by reflexivity. reflexivity.
  - intros e. repeat split.
Qed.

Lemma Iterate_variants_witness :
  Iterate map_to_list {| v := VSlice [VInt 1] |} =
    IList {| a := [VInt 1]; i := 0 |} /\
  Iterate map_to_list {| v := VStrMap (Some {[ "k"%string := VInt 1 ]}) |} =
    IMap {| list_iterator := {| a := [VString "k"]; i := 0 |};
            m := Some {[ "k"%string := VInt 1 ]} |} /\
  Iterate map_to_list {| v := VIMap (Some [(VString "k", VInt 1)]) |} =
    IMap {| list_iterator := {| a := [VString "k"]; i := 0 |};
            m := Some {[ "k"%string := VInt 1 ]} |} /\
  Iterate map_to_list {| v := VIMap (Some [(VInt 0, VInt 1)]) |} =
    IEmpty mkEmptyIterator.
Proof.
  refine (conj _ (conj _ (conj _ _))).
  - destruct (Iterate_variants map_to_list {| v := VSlice [VInt 1] |})
      as (Hslice & _).
    apply Hslice. reflexivity.
  - destruct (Iterate_variants map_to_list
                {| v := VStrMap (Some {[ "k"%string := VInt 1 ]}) |})
      as (_ & Hmap & _).
    rewrite (Hmap _ eq_refl). vm_compute. reflexivity.
  - destruct (Iterate_variants map_to_list
                {| v := VIMap (Some [(VString "k", VInt 1)]) |})
      as (_ & _ & Himap & _).
    rewrite (Himap _ eq_refl eq_refl). vm_compute. reflexivity.
  - destruct (Iterate_variants map_to_list
                {| v := VIMap (Some [(VInt 0, VInt 1)]) |})
      as (_ & _ & _ & Hother & _).
    apply Hother; intros; try discriminate.
    match goal with H : _ = VIMap _ |- _ => injection H as <- end.
    reflexivity.
Defined.

(** C6, as stated, fails on a nil string-keyed map: [toStrMap] returns it
    as it is, the test [m != nil] fails, and [Iterate] returns the empty
    iterator instead of a map iterator. *)
Lemma Iterate_nil_map_counterexample :
  ~ (forall (range_order : gmap string iface -> list (string * iface))
            (cv : ConfigValue) (m0 : option (gmap string iface)),
       v cv = VStrMap m0 ->
       exists it : MapIterator, Iterate range_order cv = IMap it).
Proof.
  intros Hclaim.
  destruct (Hclaim map_to_list {| v := VStrMap None |} None eq_refl)
    as [it Hit].
  discriminate Hit.
Qed.

(** ** A full run of the map iterator *)

Lemma iterate_loop_IMap (fuel : nat) :
  forall it : MapIterator, iterate_loop fuel (IMap it) = iterate_loop fuel it.
Proof.
  induction fuel as [|fuel IH]; intros it; [reflexivity|].
  cbn [iterate_loop]. cbn [Finished Key Value Next iterator_Iterator].
  rewrite IH. reflexivity.
Qed.

Lemma MapIterator_at (g : gmap string iface) (ks : list string) (n : nat)
    (k : string) :
  ks !! n = Some k ->
  let it := {| list_iterator := {| a := VString <$> ks; i := Z.of_nat n |};
               m := Some g |} in
  Finished it = false /\ Key it = Ok k /\
  Value it = Ok {| v := (mapIndex (Some g) k).1 |} /\
  Next it = {| list_iterator := {| a := VString <$> ks; i := Z.of_nat (S n) |};
               m := Some g |}.
Proof.
  intros Hk it.
  assert (Hlt : (n < length ks)%nat) by (eapply lookup_lt_Some, Hk).
  assert (Hfin : ListIterator_Finished (list_iterator it) = false).
  { unfold ListIterator_Finished. cbn [it list_iterator a i].
    rewrite length_fmap. apply Z.eqb_neq. lia. }
  assert (Hkey : MapIterator_Key it = Ok k).
  { unfold MapIterator_Key, ListIterator_Value. cbn [it list_iterator a i].
    destruct (sliceIndex_in_range (VString <$> ks) (Z.of_nat n))
      as (x & Hx & Hidx); [rewrite length_fmap; lia|].
    rewrite Nat2Z.id, list_lookup_fmap, Hk in Hx. injection Hx as <-.
    rewrite Hidx. reflexivity. }
  refine (conj Hfin (conj Hkey (conj _ _))).
  - cbn [Value MapIterator_Iterator]. unfold MapIterator_Value.
    rewrite Hkey. reflexivity.
  - cbn [Next MapIterator_Iterator]. unfold MapIterator_Next, ListIterator_Next.
    rewrite Hfin. cbn [negb it list_iterator a i m].
    do 2 f_equal. lia.
Qed.

Lemma iterate_loop_MapIterator (g : gmap string iface) (ks : list string) :
  forall (fuel n : nat),
    (n <= length ks)%nat -> (length ks - n <= fuel)%nat ->
    iterate_loop fuel
      {| list_iterator := {| a := VString <$> ks; i := Z.of_nat n |};
         m := Some g |} =
    Some (Ok (visit g <$> drop n ks)).
Proof.
  induction fuel as [|fuel IH]; intros n Hn Hfuel.
  - assert (n = length ks) as -> by lia. rewrite drop_all.
    cbn. unfold ListIterator_Finished. cbn [list_iterator a i].
    rewrite length_fmap, Z.eqb_refl. reflexivity.
  - destruct (decide (n = length ks)) as [->|Hne].
    + rewrite drop_all.
      cbn. unfold ListIterator_Finished. cbn [list_iterator a i].
      rewrite length_fmap, Z.eqb_refl. reflexivity.
    + destruct (lookup_lt_is_Some_2 ks n) as [k Hk]; [lia|].
      destruct (MapIterator_at g ks n k Hk) as (Hfin & Hkey & Hval & Hnext).
      cbn [iterate_loop]. rewrite Hfin, Hkey, Hval, Hnext.
      rewrite IH by lia.
      rewrite (drop_S _ _ _ Hk). reflexivity.
Qed.

(** Whenever [toStrMap] yields a map, the loop ends within [size g] rounds
    and reads, in the range order, every key with the entry under it. *)
Lemma iterate_loop_Iterate
    (range_order : gmap string iface -> list (string * iface))
    (cv : ConfigValue) (g : gmap string iface) (fuel : nat) :
  (forall g', range_order g' ≡ₚ map_to_list g') ->
  toStrMap (v cv) = Some g -> (size g <= fuel)%nat ->
  iterate_loop fuel (Iterate range_order cv) =
    Some (Ok (visit g <$> (range_order g).*1)) /\
  (visit g <$> (range_order g).*1).*1 ≡ₚ (map_to_list g).*1 /\
  (forall k x, (k, x) ∈ visit g <$> (range_order g).*1 ->
     g !! k = Some (v x)).
Proof.
  intros Hperm Hmap Hfuel.
  assert (Hkeys : (visit g <$> (range_order g).*1).*1 = (range_order g).*1).
  { rewrite <- list_fmap_compose. apply list_fmap_id. }
  refine (conj _ (conj _ _)).
  - rewrite Iterate_cases.
    assert (Hlen : length (range_order g).*1 = size g).
    { rewrite length_fmap, (Hperm g), length_map_to_list. reflexivity. }
    destruct (v cv); simpl in Hmap; try discriminate;
      rewrite Hmap, iterate_loop_IMap, mapGetKeys_eq;
      rewrite (iterate_loop_MapIterator g _ fuel 0) by lia;
      reflexivity.
  - rewrite Hkeys, (Hperm g). reflexivity.
  - intros k x [k' [Heq Hin]]%list_elem_of_fmap.
    injection Heq as -> ->.
    rewrite (Hperm g) in Hin.
    apply list_elem_of_fmap in Hin as [[k x] [-> Hin]].
    apply elem_of_map_to_list in Hin.
    cbn. rewrite Hin. reflexivity.
Qed.

(** C10. For a value that is a string-keyed map, or an interface-keyed
    map with distinct keys that are all strings, the loop from [Iterate]
    until [Finished] ends without a panic, visits every key of the map
    exactly once (in the range order, which is unspecified), and at each
    step [Value] is the map's entry for the current [Key]. *)
Theorem map_iteration_visits_each_key_once
    (range_order : gmap string iface -> list (string * iface))
    (cv : ConfigValue) :
  (forall g, range_order g ≡ₚ map_to_list g) ->
  (forall m0, v cv = VStrMap m0 ->
     exists visited,
       iterate_loop (size (default ∅ m0)) (Iterate range_order cv) =
         Some (Ok visited) /\
       visited.*1 ≡ₚ (map_to_list (default ∅ m0)).*1 /\
       NoDup visited.*1 /\
       forall k x, (k, x) ∈ visited -> default ∅ m0 !! k = Some (v x)) /\
  (forall asIMap, v cv = VIMap asIMap ->
     all_string_keys (default [] asIMap) = true ->
     distinct_keys (default [] asIMap) ->
     exists visited,
       iterate_loop (length (default [] asIMap)) (Iterate range_order cv) =
         Some (Ok visited) /\
       VString <$> visited.*1 ≡ₚ (default [] asIMap).*1 /\
       NoDup visited.*1 /\
       forall k x, (k, x) ∈ visited -> (VString k, v x) ∈ default [] asIMap).
Proof.
  intros Hperm. split.
  - intros [g|] Hcv.
    + destruct (iterate_loop_Iterate range_order cv g (size g) Hperm)
        as (Hrun & Hkeys & Hvals); [rewrite Hcv; reflexivity|lia|].
      eexists. refine (conj Hrun (conj Hkeys (conj _ Hvals))).
      rewrite Hkeys. apply NoDup_fst_map_to_list.
    + exists []. rewrite Iterate_cases, Hcv. cbn.
      rewrite map_to_list_empty.
      refine (conj eq_refl (conj _ (conj _ _))); [reflexivity|constructor|].
      intros k x Hin. inversion Hin.
  - intros asIMap Hcv Hall Hdistinct.
    destruct (toStrMap_entries asIMap Hall Hdistinct) as (g & Hg & Hentries).
    assert (Hgkeys : VString <$> (map_to_list g).*1 ≡ₚ (default [] asIMap).*1).
    { rewrite toStrMap_spec, Hall in Hg. injection Hg as <-.
      rewrite <- string_entries_keys by assumption.
      apply fmap_Permutation, fmap_Permutation.
      rewrite map_to_list_to_map.
      - apply reverse_Permutation.
      - rewrite fmap_reverse, reverse_Permutation.
        apply string_entries_distinct; assumption. }
    assert (Hsize : (size g <= length (default [] asIMap))%nat).
    { rewrite <- length_map_to_list.
      rewrite <- (length_fmap fst (default [] asIMap)), <- Hgkeys.
      rewrite !length_fmap. reflexivity. }
    destruct (iterate_loop_Iterate range_order cv g
                (length (default [] asIMap)) Hperm)
      as (Hrun & Hkeys & Hvals); [rewrite Hcv; exact Hg|exact Hsize|].
    eexists. refine (conj Hrun (conj _ (conj _ _))).
    + rewrite Hkeys. exact Hgkeys.
    + rewrite Hkeys. apply NoDup_fst_map_to_list.
    + intros k x Hin. apply Hentries, Hvals, Hin.
Qed.

Lemma map_iteration_visits_each_key_once_witness :
  (exists visited,
     iterate_loop 2
       (Iterate map_to_list
          {| v := VStrMap (Some {[ "host"%string := VString "h";
                                   "port"%string := VInt 3306 ]}) |}) =
       Some (Ok visited) /\
     visited.*1 ≡ₚ
       (map_to_list
          ({[ "host"%string := VString "h"; "port"%string := VInt 3306 ]}
             : gmap string iface)).*1) /\
  (exists visited,
     iterate_loop 2
       (Iterate map_to_list
          {| v := VIMap (Some [(VString "host", VString "h");
                               (VString "port", VInt 3306)]) |}) =
       Some (Ok visited) /\
     VString <$> visited.*1 ≡ₚ [VString "host"; VString "port"]).
Proof.
  split.
  - destruct (map_iteration_visits_each_key_once map_to_list
                {| v := VStrMap (Some {[ "host"%string := VString "h";
                                         "port"%string := VInt 3306 ]}) |}
                (fun g => reflexivity (map_to_list g)))
      as [Hmap _].
    destruct (Hmap _ eq_refl) as (visited & Hrun & Hkeys & _).
    exists visited. split; [exact Hrun|exact Hkeys].
  - destruct (map_iteration_visits_each_key_once map_to_list
                {| v := VIMap (Some [(VString "host", VString "h");
                                     (VString "port", VInt 3306)]) |}
                (fun g => reflexivity (map_to_list g)))
      as [_ Himap].
    destruct (Himap _ eq_refl eq_refl) as (visited & Hrun & Hkeys & _).
    + unfold distinct_keys. cbn.
      apply NoDup_cons. split; [|apply NoDup_singleton].
      intros Hin. apply list_elem_of_singleton in Hin. discriminate.
    + exists visited. split; [exact Hrun|exact Hkeys].
Defined.

(** ** A key bound to nil *)

Lemma mapIndex_absent (m0 : StrMap) (k : string) (x : iface) :
  mapIndex m0 k = (x, false) -> x = VNil /\ default ∅ m0 !! k = None.
Proof.
  unfold mapIndex. destruct m0 as [g|]; cbn.
  - destruct (g !! k); intros [= <-]. split; reflexivity.
  - intros [= <-]. split; [reflexivity|apply lookup_empty].
Qed.

Lemma mapIndex_default (m0 : StrMap) (k : string) :
  mapIndex (Some (default ∅ m0)) k = mapIndex m0 k.
Proof.
  destruct m0 as [g|]; [reflexivity|].
  unfold mapIndex. cbn. rewrite lookup_empty. reflexivity.
Qed.

Lemma mapIndex_insert_ne (g : gmap string iface) (key k : string) (x : iface) :
  key <> k -> mapIndex (Some (<[key := x]> g)) k = mapIndex (Some g) k.
Proof.
  intros Hne. unfold mapIndex. rewrite lookup_insert_ne by assumption.
  reflexivity.
Qed.

Lemma resolve_path_first (m1 m2 : StrMap) (segments : list string) :
  (forall k, segments !! 0%nat = Some k ->
     (mapIndex m1 k).1 = (mapIndex m2 k).1 /\
     ((mapIndex m1 k).2 = (mapIndex m2 k).2 \/ (mapIndex m1 k).1 = VNil)) ->
  resolve_path m1 segments = resolve_path m2 segments.
Proof.
  destruct segments as [|k rest]; [reflexivity|].
  intros Hfirst. destruct (Hfirst k eq_refl) as [Hval Hok].
  cbn [resolve_path]. destruct rest as [|k' rest]; [exact Hval|].
  destruct (mapIndex m1 k) as [x1 ok1], (mapIndex m2 k) as [x2 ok2].
  cbn in Hval, Hok. subst x2.
  destruct Hok as [->| ->]; [reflexivity|].
  destruct ok1, ok2; reflexivity.
Qed.

(** Binding an absent key to nil changes no descent. *)
Lemma resolve_path_insert_nil (m0 : StrMap) (key : string)
    (segments : list string) :
  (mapIndex m0 key).2 = false ->
  resolve_path (Some (<[key := VNil]> (default ∅ m0))) segments =
    resolve_path m0 segments.
Proof.
  intros Habsent. apply resolve_path_first. intros k _.
  destruct (decide (key = k)) as [<-|Hne].
  - destruct (mapIndex m0 key) as [x ok] eqn:Hkey. cbn in Habsent. subst ok.
    apply mapIndex_absent in Hkey as [-> _].
    unfold mapIndex at 1 3. rewrite lookup_insert_eq. cbn.
    split; [reflexivity|right; reflexivity].
  - rewrite mapIndex_insert_ne, mapIndex_default by assumption.
    split; [reflexivity|left; reflexivity].
Qed.

(** C9. A literal key bound to nil makes [Get] return nil without any
    descent along the dotted path, so [IsSet] is false for a key bound to
    nil as it is for an absent key; and binding an absent key to nil
    changes the result of no [Get], so the interface does not tell the two
    configurations apart. *)
Theorem nil_binding_not_distinguished (c : Config) (key : string) :
  (mapIndex (data c) key = (VNil, true) ->
     Get c key = Ok {| v := VNil |} /\ IsSet {| v := VNil |} = false) /\
  ((mapIndex (data c) key).2 = false ->
   resolve_path (data c) (Split key SEP) = VNil ->
     (Get c key = Ok {| v := VNil |} /\ IsSet {| v := VNil |} = false) /\
     forall key' : string,
       Get (NewConfig (Some (<[key := VNil]> (default ∅ (data c))))) key' =
         Get c key').
Proof.
  split.
  - intros Hbound. unfold Get. rewrite Hbound. split; reflexivity.
  - intros Habsent Hpath. split.
    + rewrite Get_resolve. unfold resolve.
      destruct (mapIndex (data c) key) as [x [|]]; [discriminate|].
      rewrite Hpath. split; reflexivity.
    + intros key'. rewrite !Get_resolve. f_equal. unfold resolve, NewConfig.
      cbn [data]. rewrite resolve_path_insert_nil by assumption.
      destruct (decide (key = key')) as [<-|Hne].
      * unfold mapIndex at 1. rewrite lookup_insert_eq.
        destruct (mapIndex (data c) key) as [x [|]]; [discriminate|].
        congruence.
      * rewrite mapIndex_insert_ne, mapIndex_default by assumption.
        reflexivity.
Qed.

Lemma nil_binding_not_distinguished_witness :
  let shadowed : gmap string iface :=
    {[ "a.b"%string := VNil;
       "a"%string := VStrMap (Some {[ "b"%string := VInt 1 ]}) ]} in
  (resolve_path (Some shadowed) (Split "a.b" SEP) = VInt 1 /\
   Get (NewConfig (Some shadowed)) "a.b" = Ok {| v := VNil |}) /\
  (Get (NewConfig (Some ∅)) "a.b" = Ok {| v := VNil |} /\
   forall key' : string,
     Get (NewConfig (Some {[ "a.b"%string := VNil ]})) key' =
       Get (NewConfig (Some ∅)) key').
Proof.
  intros shadowed. split.
  - split; [vm_compute; reflexivity|].
    destruct (nil_binding_not_distinguished (NewConfig (Some shadowed)) "a.b")
      as [Hbound _].
    apply Hbound. vm_compute. reflexivity.
  - destruct (nil_binding_not_distinguished (NewConfig (Some ∅)) "a.b")
      as [_ Habsent].
    destruct Habsent as [[Hget _] Hsame].
    + vm_compute. reflexivity.
    + vm_compute. reflexivity.
    + split; [exact Hget|exact Hsame].
Defined.

(** ** No operation writes the configuration *)

Section Frame.

Variable range_order : gmap string Heap.hval -> list (string * Heap.hval).

Lemma unchanged_refl (s : Heap.store) : Heap.unchanged s s.
Proof. repeat split; reflexivity. Qed.

Lemma unchanged_trans (s1 s2 s3 : Heap.store) :
  Heap.unchanged s1 s2 -> Heap.unchanged s2 s3 -> Heap.unchanged s1 s3.
Proof.
  intros (H1 & H2 & H3) (H1' & H2' & H3').
  repeat split; etrans; eassumption.
Qed.

Lemma frame_ret {A : Type} (x : A) : Heap.frame (Heap.ret x).
Proof. intros s. exact (unchanged_refl s). Qed.

Lemma frame_panic {A : Type} (msg : string) : Heap.frame (@Heap.panic A msg).
Proof. intros s. exact (unchanged_refl s). Qed.

Lemma frame_bind {A B : Type} (c : Heap.M A) (k : A -> Heap.M B) :
  Heap.frame c -> (forall x, Heap.frame (k x)) -> Heap.frame (Heap.mbind c k).
Proof.
  intros Hc Hk s. unfold Heap.mbind.
  specialize (Hc s). destruct (c s) as [[x|msg] s']; cbn in *.
  - eapply unchanged_trans; [exact Hc|apply Hk].
  - exact Hc.
Qed.

Lemma frame_strmap_contents (m : option Heap.loc) :
  Heap.frame (Heap.strmap_contents m).
Proof. intros s. exact (unchanged_refl s). Qed.

Lemma frame_imap_contents (m : option Heap.loc) :
  Heap.frame (Heap.imap_contents m).
Proof. intros s. exact (unchanged_refl s). Qed.

Lemma frame_slice_contents (a : option Heap.loc) :
  Heap.frame (Heap.slice_contents a).
Proof. intros s. exact (unchanged_refl s). Qed.

Lemma frame_mapIndex (m : option Heap.loc) (k : string) :
  Heap.frame (Heap.mapIndex m k).
Proof.
  apply frame_bind; [apply frame_strmap_contents|intros; apply frame_ret].
Qed.

Lemma frame_len (a : option Heap.loc) : Heap.frame (Heap.len a).
Proof.
  apply frame_bind; [apply frame_slice_contents|intros; apply frame_ret].
Qed.

Lemma frame_index (a : option Heap.loc) (i : Z) : Heap.frame (Heap.index a i).
Proof.
  apply frame_bind; [apply frame_slice_contents|].
  intros l. destruct (sliceIndex l i); [apply frame_ret|apply frame_panic].
Qed.

(** A new map or array takes a location that holds nothing yet. *)
Lemma make_strmap_fresh (s : Heap.store) :
  Heap.strmaps s !! fresh (dom (Heap.strmaps s)) = None.
Proof. apply not_elem_of_dom. apply is_fresh. Qed.

Lemma make_slice_fresh (s : Heap.store) :
  Heap.arrays s !! fresh (dom (Heap.arrays s)) = None.
Proof. apply not_elem_of_dom. apply is_fresh. Qed.

Lemma subseteq_alter_fresh {V : Type} (m0 m1 : gmap Heap.loc V)
    (f : V -> V) (r : Heap.loc) :
  m0 !! r = None -> m0 ⊆ m1 -> m0 ⊆ alter f r m1.
Proof.
  intros Hfresh Hsub. apply map_subseteq_spec. intros r' x Hr'.
  assert (r <> r') by congruence.
  rewrite lookup_alter_ne by assumption.
  eapply lookup_weaken; eassumption.
Qed.

(** The loop of [toStrMap] assigns only into the map it is building. *)
Lemma toStrMap_loop_frame (entries : list (Heap.hval * Heap.hval))
    (strMap : Heap.loc) (s0 : Heap.store) :
  Heap.strmaps s0 !! strMap = None ->
  forall s, Heap.unchanged s0 s ->
    Heap.unchanged s0 (Heap.toStrMap_loop entries strMap s).2.
Proof.
  intros Hfresh. induction entries as [|[k x] rest IH]; intros s Hs.
  - exact Hs.
  - cbn [Heap.toStrMap_loop].
    destruct (Heap.assertString k) as [asStr [|]]; [|exact Hs].
    unfold Heap.mbind, Heap.strmap_assign. apply IH.
    destruct Hs as (Hm & Hi & Ha). repeat split; cbn; try assumption.
    apply subseteq_alter_fresh; assumption.
Qed.

Lemma frame_toStrMap (value : Heap.hval) : Heap.frame (Heap.toStrMap value).
Proof.
  destruct value; try apply frame_ret.
  intros s. unfold Heap.toStrMap, Heap.mbind, Heap.make_strmap,
    Heap.imap_contents. cbn.
  apply toStrMap_loop_frame; [apply make_strmap_fresh|].
  repeat split; cbn; try reflexivity.
  apply insert_subseteq, make_strmap_fresh.
Qed.

Lemma frame_getValueWithCompositeKey (keyChunks : list string) :
  forall (n : nat) (current : Z) (m : option Heap.loc),
    Z.to_nat (Z.of_nat (length keyChunks) - current) = n ->
    Heap.frame (Heap.getValueWithCompositeKey m keyChunks current).
Proof.
  induction n as [n IH] using lt_wf_ind. intros current m Hn.
  rewrite Heap.getValueWithCompositeKey_equation_1.
  destruct (decide (0 <= current < Z.of_nat (length keyChunks))) as [Hin|Hout];
    cbn; [|apply frame_panic].
  apply frame_bind; [apply frame_mapIndex|]. intros p.
  destruct (current =? Z.of_nat (length keyChunks) - 1); [apply frame_ret|].
  apply frame_bind; [apply frame_toStrMap|]. intros [r|]; [|apply frame_ret].
  eapply (IH (Z.to_nat (Z.of_nat (length keyChunks) - (current + 1))));
    [lia|reflexivity].
Qed.

Lemma frame_Get (c : Heap.Config) (key : string) : Heap.frame (Heap.Get c key).
Proof.
  apply frame_bind; [apply frame_mapIndex|]. intros [x [|]]; cbn.
  - apply frame_ret.
  - apply frame_bind; [|intros; apply frame_ret].
    eapply frame_getValueWithCompositeKey. reflexivity.
Qed.

Lemma frame_ConfigOf (cv : Heap.ConfigValue) : Heap.frame (Heap.ConfigOf cv).
Proof.
  apply frame_bind; [apply frame_toStrMap|intros; apply frame_ret].
Qed.

Lemma frame_Count (cv : Heap.ConfigValue) : Heap.frame (Heap.Count cv).
Proof.
  unfold Heap.Count. destruct (Heap.v cv); cbn; try apply frame_ret.
  apply frame_len.
Qed.

(** The loop of [mapGetKeys] appends only to the slice it is building. *)
Lemma mapGetKeys_loop_frame (entries : list (string * Heap.hval))
    (a : Heap.loc) (s0 : Heap.store) :
  Heap.arrays s0 !! a = None ->
  forall s, Heap.unchanged s0 s ->
    Heap.unchanged s0 (Heap.mapGetKeys_loop entries a s).2.
Proof.
  intros Hfresh. induction entries as [|[k x] rest IH]; intros s Hs.
  - exact Hs.
  - cbn [Heap.mapGetKeys_loop]. unfold Heap.mbind, Heap.slice_append.
    apply IH. destruct Hs as (Hm & Hi & Ha).
    repeat split; cbn; try assumption.
    apply subseteq_alter_fresh; assumption.
Qed.

Lemma frame_mapGetKeys (m : option Heap.loc) :
  Heap.frame (Heap.mapGetKeys range_order m).
Proof.
  intros s. unfold Heap.mapGetKeys, Heap.mbind, Heap.make_slice,
    Heap.strmap_contents.
  match goal with
  | |- context [Heap.mapGetKeys_loop ?es ?a ?s1] =>
      pose proof (mapGetKeys_loop_frame es a s (make_slice_fresh s) s1) as Hloop;
      destruct (Heap.mapGetKeys_loop es a s1) as [[u|msg] s2]
  end; cbn in *; apply Hloop;
    (repeat split; cbn; try reflexivity;
     apply insert_subseteq, make_slice_fresh).
Qed.

Lemma frame_Iterate (cv : Heap.ConfigValue) :
  Heap.frame (Heap.Iterate range_order cv).
Proof.
  unfold Heap.Iterate.
  destruct (Heap.v cv); cbn -[Heap.toStrMap]; try apply frame_ret;
    (apply frame_bind; [apply frame_toStrMap|]; intros [keyed|];
     [|apply frame_ret];
     apply frame_bind; [apply frame_mapGetKeys|intros; apply frame_ret]).
Qed.

Lemma frame_ListIterator_Finished (it : Heap.ListIterator) :
  Heap.frame (Heap.ListIterator_Finished it).
Proof. apply frame_bind; [apply frame_len|intros; apply frame_ret]. Qed.

Lemma frame_ListIterator_Next (it : Heap.ListIterator) :
  Heap.frame (Heap.ListIterator_Next it).
Proof.
  apply frame_bind; [apply frame_ListIterator_Finished|].
  intros [|]; apply frame_ret.
Qed.

Lemma frame_ListIterator_Value (it : Heap.ListIterator) :
  Heap.frame (Heap.ListIterator_Value it).
Proof. apply frame_bind; [apply frame_index|intros; apply frame_ret]. Qed.

Lemma frame_MapIterator_Key (it : Heap.MapIterator) :
  Heap.frame (Heap.MapIterator_Key it).
Proof.
  apply frame_bind; [apply frame_ListIterator_Value|intros; apply frame_ret].
Qed.

Lemma frame_MapIterator_Value (it : Heap.MapIterator) :
  Heap.frame (Heap.MapIterator_Value it).
Proof.
  apply frame_bind; [apply frame_MapIterator_Key|]. intros k.
  apply frame_bind; [apply frame_mapIndex|intros; apply frame_ret].
Qed.

Lemma frame_Next (it : Heap.iterator) : Heap.frame (Heap.Next it).
Proof.
  destruct it as [l|l|]; cbn; [| |apply frame_ret].
  - apply frame_bind; [apply frame_ListIterator_Next|intros; apply frame_ret].
  - apply frame_bind; [|intros; apply frame_ret].
    apply frame_bind; [apply frame_ListIterator_Next|intros; apply frame_ret].
Qed.

Lemma frame_Finished (it : Heap.iterator) : Heap.frame (Heap.Finished it).
Proof.
  destruct it as [l|l|]; cbn;
    [apply frame_ListIterator_Finished|apply frame_ListIterator_Finished
    |apply frame_ret].
Qed.

Lemma frame_Key (it : Heap.iterator) : Heap.frame (Heap.Key it).
Proof.
  destruct it as [l|l|]; cbn;
    [apply frame_ret|apply frame_MapIterator_Key|apply frame_ret].
Qed.

Lemma frame_Value (it : Heap.iterator) : Heap.frame (Heap.Value it).
Proof.
  destruct it as [l|l|]; cbn;
    [apply frame_ListIterator_Value|apply frame_MapIterator_Value
    |apply frame_ret].
Qed.

Lemma frame_step {A : Type} (c : Heap.M A) (upd : A -> list Heap.obj)
    (regs : list Heap.obj) :
  Heap.frame c -> Heap.frame (Heap.step c upd regs).
Proof.
  intros Hc s. unfold Heap.step. specialize (Hc s).
  destruct (c s) as [[x|msg] s']; exact Hc.
Qed.

Lemma frame_exec (regs : list Heap.obj) (c : Heap.call) :
  Heap.frame (Heap.exec range_order regs c).
Proof.
  destruct c as [n key|n|f n|n|n|n|n|n|n|n]; cbn;
    destruct (regs !! n) as [[c|cv|it|results]|]; try apply frame_ret;
    apply frame_step.
  - apply frame_Get.
  - apply frame_ConfigOf.
  - apply frame_Count.
  - apply frame_Iterate.
  - apply frame_Next.
  - apply frame_Finished.
  - apply frame_Key.
  - apply frame_Value.
Qed.

Lemma frame_run (calls : list Heap.call) :
  forall regs, Heap.frame (Heap.run range_order calls regs).
Proof.
  induction calls as [|c rest IH]; intros regs; cbn; [apply frame_ret|].
  apply frame_bind; [apply frame_exec|apply IH].
Qed.

End Frame.

(** C7. No sequence of calls of the package ([Get], [Config], the coercion
    accessors, [Count], [Iterate] and the iterator methods), on whatever
    objects the client holds, changes a map or a slice that existed before
    it: every map and backing array of the store, the configuration's
    data map and all that is reachable from it included, has the same
    contents afterwards. The package writes only the maps and slices it
    makes itself. *)
Theorem no_call_mutates_configuration
    (range_order : gmap string Heap.hval -> list (string * Heap.hval))
    (calls : list Heap.call) (regs : list Heap.obj) (s : Heap.store) :
  let s' := (Heap.run range_order calls regs s).2 in
  (forall r g, Heap.strmaps s !! r = Some g -> Heap.strmaps s' !! r = Some g) /\
  (forall r l, Heap.imaps s !! r = Some l -> Heap.imaps s' !! r = Some l) /\
  (forall r l, Heap.arrays s !! r = Some l -> Heap.arrays s' !! r = Some l).
Proof.
  intros s'.
  destruct (frame_run range_order calls regs s) as (Hm & Hi & Ha).
  repeat split; intros r x Hr; eapply lookup_weaken; eassumption.
Qed.

Lemma no_call_mutates_configuration_witness :
  let tables := [Heap.HString "posts"; Heap.HString "likes"] in
  let account := [(Heap.HString "login", Heap.HString "db_user")] in
  let db : gmap string Heap.hval :=
    {[ "tables"%string := Heap.HSlice (Some 1%positive);
       "account"%string := Heap.HIMap (Some 1%positive) ]} in
  let s := {| Heap.strmaps := {[ 1%positive := db ]};
              Heap.imaps := {[ 1%positive := account ]};
              Heap.arrays := {[ 1%positive := tables ]} |} in
  let calls := [Heap.CallGet 0 "account"; Heap.CallIterate 1;
                Heap.CallValue 2; Heap.CallNext 2;
                Heap.CallGet 0 "tables"; Heap.CallIterate 4;
                Heap.CallNext 5; Heap.CallConfig 1;
                Heap.CallCoerce Heap.AMustString 3; Heap.CallCount 4] in
  let s' := (Heap.run map_to_list calls
               [Heap.OConfig (Heap.NewConfig (Some 1%positive))] s).2 in
  Heap.strmaps s' !! 1%positive = Some db /\
  Heap.imaps s' !! 1%positive = Some account /\
  Heap.arrays s' !! 1%positive = Some tables /\
  Heap.arrays s' !! 2%positive = Some [Heap.HString "login"] /\
  size (Heap.strmaps s') = 3%nat.
Proof.
  intros tables account db s calls s'.
  destruct (no_call_mutates_configuration map_to_list calls
              [Heap.OConfig (Heap.NewConfig (Some 1%positive))] s)
    as (Hmaps & Himaps & Harrays).
  refine (conj (Hmaps _ _ _) (conj (Himaps _ _ _) (conj (Harrays _ _ _) _)));
    try (vm_compute; reflexivity).
  split; vm_compute; reflexivity.
Defined.

(** ** The store embedding computes what the tree embedding computes *)

Lemma repr_unchanged (s s' : Heap.store) :
  Heap.unchanged s s' -> forall x t, repr s x t -> repr s' x t.
Proof.
  intros (Hm & Hi & Ha). fix IH 3. intros x t R.
  destruct R as [| | | | | | |r l ts Hr Hl| |r hg g Hr Hg| |r hl l Hr Hl];
    try constructor.
  - apply repr_slice with l; [eapply lookup_weaken; eassumption|].
    clear Hr. revert l ts Hl. fix IHl 3. intros l ts Hl.
    destruct Hl as [|x t l ts Hx Hl]; constructor; [apply IH, Hx|apply IHl, Hl].
  - apply repr_strmap with hg; [eapply lookup_weaken; eassumption|].
    intros k. destruct (Hg k) as [x t Hx|]; constructor. apply IH, Hx.
  - apply repr_imap with hl; [eapply lookup_weaken; eassumption|].
    clear Hr. revert hl l Hl. fix IHl 3. intros hl l Hl.
    destruct Hl as [|p q hl l [Hk Hx] Hl]; constructor;
      [split; [apply IH, Hk|apply IH, Hx]|apply IHl, Hl].
Qed.

Lemma repr_assertString (s : Heap.store) (x : Heap.hval) (t : iface) :
  repr s x t -> Heap.assertString x = assertString t.
Proof. intros R. destruct R; reflexivity. Qed.

Lemma repr_mapIndex (s : Heap.store) (hm : option Heap.loc) (m0 : StrMap)
    (k : string) :
  repr s (Heap.HStrMap hm) (VStrMap m0) ->
  exists x, Heap.mapIndex hm k s = (Ok (x, (mapIndex m0 k).2), s) /\
            repr s x (mapIndex m0 k).1.
Proof.
  intros R. inversion R as [| | | | | | | | |r hg g Hr Hg| |]; subst.
  - exists Heap.HNil. split; [reflexivity|constructor].
  - unfold Heap.mapIndex, Heap.mbind, Heap.strmap_contents, Heap.ret, mapIndex.
    cbn. rewrite Hr. cbn.
    destruct (Hg k) as [x t Hx|]; eexists; (split; [reflexivity|]);
      [exact Hx|constructor].
Qed.

(** The conversion loops run in step: the map under construction in the
    store represents the map under construction in the tree embedding. *)
Lemma repr_toStrMap_loop (s0 : Heap.store) (strMap : Heap.loc)
    (hentries : list (Heap.hval * Heap.hval)) (entries : list (iface * iface)) :
  Heap.strmaps s0 !! strMap = None ->
  Forall2 (fun p q => repr s0 p.1 q.1 /\ repr s0 p.2 q.2) hentries entries ->
  forall (s : Heap.store) (hg : gmap string Heap.hval) (g : gmap string iface),
    Heap.unchanged s0 s ->
    Heap.strmaps s !! strMap = Some hg ->
    (forall k, option_Forall2 (repr s0) (hg !! k) (g !! k)) ->
    exists ho s',
      Heap.toStrMap_loop hentries strMap s = (Ok ho, s') /\
      Heap.unchanged s0 s' /\
      repr s' (Heap.HStrMap ho) (VStrMap (toStrMap_loop entries g)).
Proof.
  intros Hfresh Hentries.
  induction Hentries as [|[hk hx] [k x] hentries entries [Hk Hx] _ IH];
    intros s hg g Hs Hr Hg.
  - exists (Some strMap), s. refine (conj eq_refl (conj Hs _)).
    cbn. apply repr_strmap with hg; [exact Hr|].
    intros k. destruct (Hg k); constructor.
    eapply repr_unchanged; eassumption.
  - cbn in Hk, Hx. cbn [Heap.toStrMap_loop toStrMap_loop].
    rewrite (repr_assertString s0 hk k Hk).
    destruct (assertString k) as [asStr [|]].
    + unfold Heap.mbind, Heap.strmap_assign.
      apply (IH _ (<[asStr := hx]> hg) (<[asStr := x]> g)).
      * destruct Hs as (Hm & Hi & Ha). repeat split; cbn; try assumption.
        apply subseteq_alter_fresh; assumption.
      * cbn. rewrite lookup_alter_eq, Hr. reflexivity.
      * intros k'. destruct (decide (asStr = k')) as [<-|Hne].
        -- rewrite !lookup_insert_eq. constructor. exact Hx.
        -- rewrite !lookup_insert_ne by assumption. apply Hg.
    + exists None, s. refine (conj eq_refl (conj Hs _)). constructor.
Qed.

Lemma repr_toStrMap (s : Heap.store) (x : Heap.hval) (t : iface) :
  repr s x t ->
  exists ho s',
    Heap.toStrMap x s = (Ok ho, s') /\ Heap.unchanged s s' /\
    repr s' (Heap.HStrMap ho) (VStrMap (toStrMap t)).
Proof.
  intros R.
  destruct R as [| | | | | | |r l ts Hr Hl| |r hg g Hr Hg| |r hl l Hr Hl];
    try (exists None, s;
         refine (conj eq_refl (conj (unchanged_refl s) _)); constructor).
  - exists (Some r), s. refine (conj eq_refl (conj (unchanged_refl s) _)).
    apply repr_strmap with hg; assumption.
  - unfold Heap.toStrMap, toStrMap. cbn.
    unfold Heap.mbind, Heap.make_strmap, Heap.imap_contents. cbn.
    apply (repr_toStrMap_loop s _ [] [] (make_strmap_fresh s)
             ltac:(constructor) _ ∅ ∅).
    + repeat split; cbn; try reflexivity.
      apply insert_subseteq, make_strmap_fresh.
    + cbn. apply lookup_insert_eq.
    + intros k. rewrite !lookup_empty. constructor.
  - unfold Heap.toStrMap, toStrMap. cbn.
    unfold Heap.mbind, Heap.make_strmap, Heap.imap_contents. cbn.
    rewrite Hr. cbn.
    apply (repr_toStrMap_loop s _ hl l (make_strmap_fresh s) Hl _ ∅ ∅).
    + repeat split; cbn; try reflexivity.
      apply insert_subseteq, make_strmap_fresh.
    + cbn. apply lookup_insert_eq.
    + intros k. rewrite !lookup_empty. constructor.
Qed.

Lemma Heap_getValueWithCompositeKey_step (m0 : option Heap.loc)
    (keyChunks : list string) (current : Z) :
  0 <= current < Z.of_nat (length keyChunks) ->
  Heap.getValueWithCompositeKey m0 keyChunks current =
    Heap.mbind
      (Heap.mapIndex m0 (nth (Z.to_nat current) keyChunks EmptyString))
      (fun p =>
         if current =? Z.of_nat (length keyChunks) - 1 then Heap.ret p.1
         else
           Heap.mbind (Heap.toStrMap p.1)
             (fun data' =>
                match data' with
                | Some _ =>
                    Heap.getValueWithCompositeKey data' keyChunks (current + 1)
                | None => Heap.ret Heap.HNil
                end)).
Proof.
  intros Hin. rewrite Heap.getValueWithCompositeKey_equation_1.
  destruct (decide (0 <= current < Z.of_nat (length keyChunks)));
    [reflexivity|contradiction].
Qed.

Lemma Heap_getValueWithCompositeKey_out_of_range (m0 : option Heap.loc)
    (keyChunks : list string) (current : Z) :
  ~ 0 <= current < Z.of_nat (length keyChunks) ->
  Heap.getValueWithCompositeKey m0 keyChunks current =
    Heap.panic "index out of range".
Proof.
  intros Hout. rewrite Heap.getValueWithCompositeKey_equation_1.
  destruct (decide (0 <= current < Z.of_nat (length keyChunks)));
    [contradiction|reflexivity].
Qed.

Lemma repr_getValueWithCompositeKey (keyChunks : list string) :
  forall (n : nat) (current : Z) (hm : option Heap.loc) (m0 : StrMap)
         (s : Heap.store),
    Z.to_nat (Z.of_nat (length keyChunks) - current) = n ->
    repr s (Heap.HStrMap hm) (VStrMap m0) ->
    exists r s',
      Heap.getValueWithCompositeKey hm keyChunks current s = (r, s') /\
      Heap.unchanged s s' /\
      match r, getValueWithCompositeKey m0 keyChunks current with
      | Ok x, Ok t => repr s' x t
      | Panic msg, Panic msg' => msg = msg'
      | _, _ => False
      end.
Proof.
  induction n as [n IH] using lt_wf_ind. intros current hm m0 s Hn R.
  destruct (decide (0 <= current < Z.of_nat (length keyChunks))) as [Hin|Hout].
  - rewrite getValueWithCompositeKey_step,
      Heap_getValueWithCompositeKey_step by assumption.
    cbn zeta.
    destruct (repr_mapIndex s hm m0
                (nth (Z.to_nat current) keyChunks EmptyString) R)
      as (x & Hx & Rx).
    unfold Heap.mbind at 1. rewrite Hx. cbn [fst snd].
    destruct (current =? Z.of_nat (length keyChunks) - 1).
    + exists (Ok x), s. refine (conj eq_refl (conj (unchanged_refl s) Rx)).
    + destruct (repr_toStrMap s x _ Rx) as (ho & s1 & Hto & Hs1 & Rto).
      unfold Heap.mbind. rewrite Hto.
      destruct (toStrMap (mapIndex m0 _).1) as [g|] eqn:Hg.
      * inversion Rto as [| | | | | | | | |r hg g' Hr Hhg| |]; subst.
        destruct (IH (Z.to_nat (Z.of_nat (length keyChunks) - (current + 1)))
                    ltac:(lia) (current + 1) (Some r) (Some g) s1 eq_refl Rto)
          as (res & s2 & Hrun & Hs2 & Hrec).
        exists res, s2.
        refine (conj Hrun (conj _ Hrec)).
        eapply unchanged_trans; eassumption.
      * inversion Rto; subst.
        exists (Ok Heap.HNil), s1.
        refine (conj eq_refl (conj Hs1 _)). constructor.
  - rewrite getValueWithCompositeKey_out_of_range,
      Heap_getValueWithCompositeKey_out_of_range by assumption.
    exists (Panic "index out of range"), s.
    refine (conj eq_refl (conj (unchanged_refl s) eq_refl)).
Qed.

(** X14. [Get] in the store embedding returns a value that represents what
    [Get] returns in the tree embedding, and leaves every map and slice it
    found in the store as it was. *)
Theorem Heap_Get_repr (s : Heap.store) (hc : Heap.Config) (c : Config)
    (key : string) :
  repr s (Heap.HStrMap (Heap.data hc)) (VStrMap (data c)) ->
  exists hcv cv s',
    Heap.Get hc key s = (Ok hcv, s') /\ Get c key = Ok cv /\
    Heap.unchanged s s' /\ repr s' (Heap.v hcv) (v cv).
Proof.
  intros R. unfold Heap.Get, Get.
  destruct (repr_mapIndex s _ _ key R) as (x & Hx & Rx).
  unfold Heap.mbind at 1. rewrite Hx. cbn [fst snd].
  destruct (mapIndex (data c) key) as [t [|]]; cbn [fst snd] in *.
  - eexists _, _, s. repeat split; [apply unchanged_refl ..|exact Rx].
  - destruct (repr_getValueWithCompositeKey (Split key SEP) _ 0
                (Heap.data hc) (data c) s eq_refl R)
      as (res & s' & Hrun & Hs' & Hrec).
    pose proof (getValueWithCompositeKey_resolve_path (Split key SEP) []
                  (data c) (Split_SEP_nonempty key)) as Hok.
    change (getValueWithCompositeKey (data c) (Split key SEP) 0 =
            Ok (resolve_path (data c) (Split key SEP))) in Hok.
    rewrite Hok in Hrec |- *. destruct res as [y|msg]; [|contradiction].
    unfold Heap.mbind. rewrite Hrun.
    eexists _, _, s'. repeat split; [apply Hs' ..|exact Hrec].
Qed.

(** * Further properties *)

(** ** Iteration over a slice *)

Lemma iterate_loop_IList (fuel : nat) :
  forall it : ListIterator, iterate_loop fuel (IList it) = iterate_loop fuel it.
Proof.
  induction fuel as [|fuel IH]; intros it; [reflexivity|].
  cbn [iterate_loop]. cbn [Finished Key Value Next iterator_Iterator].
  rewrite IH. reflexivity.
Qed.

Lemma ListIterator_at (a0 : list iface) (n : nat) (x : iface) :
  a0 !! n = Some x ->
  let it := {| a := a0; i := Z.of_nat n |} in
  ListIterator_Finished it = false /\
  ListIterator_Value it = Ok {| v := x |} /\
  ListIterator_Next it = {| a := a0; i := Z.of_nat (S n) |}.
Proof.
  intros Hx it.
  assert (Hlt : (n < length a0)%nat) by (eapply lookup_lt_Some, Hx).
  assert (Hfin : ListIterator_Finished it = false).
  { unfold ListIterator_Finished. cbn [it a i]. apply Z.eqb_neq. lia. }
  refine (conj Hfin (conj _ _)).
  - unfold ListIterator_Value. cbn [it a i].
    destruct (sliceIndex_in_range a0 (Z.of_nat n)) as (y & Hy & Hidx); [lia|].
    rewrite Nat2Z.id, Hx in Hy. injection Hy as <-.
    rewrite Hidx. reflexivity.
  - unfold ListIterator_Next. rewrite Hfin. cbn [negb it a i].
    f_equal. lia.
Qed.

Lemma ListIterator_at_end (a0 : list iface) :
  ListIterator_Finished {| a := a0; i := Z.of_nat (length a0) |} = true.
Proof. unfold ListIterator_Finished. cbn [a i]. apply Z.eqb_refl. Qed.

(** The element wrapped as the loop reads it from a list iterator. *)
Lemma iterate_loop_ListIterator (a0 : list iface) :
  forall (fuel n : nat),
    (n <= length a0)%nat ->
    iterate_loop fuel {| a := a0; i := Z.of_nat n |} =
      if decide (length a0 - n <= fuel)%nat
      then Some (Ok ((fun x => (EmptyString, {| v := x |})) <$> drop n a0))
      else None.
Proof.
  induction fuel as [|fuel IH]; intros n Hn.
  - destruct (decide (n = length a0)) as [->|Hne].
    + rewrite drop_all. cbn [iterate_loop].
      cbn [Finished ListIterator_Iterator]. rewrite ListIterator_at_end.
      destruct (decide _); [reflexivity|lia].
    + destruct (lookup_lt_is_Some_2 a0 n) as [x Hx]; [lia|].
      destruct (ListIterator_at a0 n x Hx) as (Hfin & _).
      cbn [iterate_loop]. cbn [Finished ListIterator_Iterator]. rewrite Hfin.
      destruct (decide _); [lia|reflexivity].
  - destruct (decide (n = length a0)) as [->|Hne].
    + rewrite drop_all. cbn [iterate_loop].
      cbn [Finished ListIterator_Iterator]. rewrite ListIterator_at_end.
      destruct (decide _); [reflexivity|lia].
    + destruct (lookup_lt_is_Some_2 a0 n) as [x Hx]; [lia|].
      destruct (ListIterator_at a0 n x Hx) as (Hfin & Hval & Hnext).
      cbn [iterate_loop].
      cbn [Finished Key Value Next ListIterator_Iterator].
      rewrite Hfin, Hval, Hnext, IH by lia.
      rewrite (drop_S _ _ _ Hx).
      destruct (decide (length a0 - S n <= fuel)%nat),
               (decide (length a0 - n <= S fuel)%nat);
        try lia; reflexivity.
Qed.

(** X1. For a slice value the loop from [Iterate] until [Finished] reads
    the elements in slice order, each with the empty key, and never
    panics; it takes exactly [len] rounds, so fewer rounds do not reach
    the end. *)
Theorem slice_iteration_in_order
    (range_order : gmap string iface -> list (string * iface))
    (a0 : list iface) (fuel : nat) :
  iterate_loop fuel (Iterate range_order {| v := VSlice a0 |}) =
    if decide (length a0 <= fuel)%nat
    then Some (Ok ((fun x => (EmptyString, {| v := x |})) <$> a0))
    else None.
Proof.
  rewrite Iterate_cases. cbn [v]. rewrite iterate_loop_IList.
  change 0 with (Z.of_nat 0).
  rewrite (iterate_loop_ListIterator a0 fuel 0) by lia.
  rewrite Nat.sub_0_r. reflexivity.
Qed.

Lemma ListIterator_iter_Next (a0 : list iface) (n : nat) :
  Nat.iter n ListIterator_Next {| a := a0; i := 0 |} =
    {| a := a0; i := Z.of_nat (n `min` length a0) |}.
Proof.
  induction n as [|n IH]; [reflexivity|].
  change (Nat.iter (S n) ListIterator_Next {| a := a0; i := 0 |})
    with (ListIterator_Next (Nat.iter n ListIterator_Next {| a := a0; i := 0 |})).
  rewrite IH.
  destruct (decide (n < length a0)%nat) as [Hlt|Hge].
  - destruct (lookup_lt_is_Some_2 a0 n Hlt) as [x Hx].
    replace (n `min` length a0)%nat with n by lia.
    destruct (ListIterator_at a0 n x Hx) as (_ & _ & ->).
    f_equal. lia.
  - replace (n `min` length a0)%nat with (length a0) by lia.
    replace (S n `min` length a0)%nat with (length a0) by lia.
    apply ListIterator_Next_finished, ListIterator_at_end.
Qed.

Lemma iterator_iter_Next_IList (n : nat) (it : ListIterator) :
  Nat.iter n Next (IList it) = IList (Nat.iter n ListIterator_Next it).
Proof.
  induction n as [|n IH]; [reflexivity|].
  change (Nat.iter (S n) Next (IList it))
    with (Next (Nat.iter n Next (IList it))).
  rewrite IH. reflexivity.
Qed.

(** X2. After [n] calls of [Next] the iterator of a slice value stands at
    index [min n len]: it is finished exactly when [n >= len], before that
    [Value] is the element at index [n], and [Key] is always empty. *)
Theorem slice_iterator_position
    (range_order : gmap string iface -> list (string * iface))
    (a0 : list iface) (n : nat) :
  let it := Nat.iter n Next (Iterate range_order {| v := VSlice a0 |}) in
  Index it = Z.of_nat (n `min` length a0) /\
  (Finished it = true <-> (length a0 <= n)%nat) /\
  (forall x, a0 !! n = Some x -> Value it = Ok {| v := x |}) /\
  Key it = Ok EmptyString.
Proof.
  rewrite Iterate_cases. cbn [v].
  rewrite iterator_iter_Next_IList, ListIterator_iter_Next. cbn zeta.
  refine (conj eq_refl (conj _ (conj _ eq_refl))).
  - cbn [Finished iterator_Iterator ListIterator_Iterator].
    rewrite ListIterator_Finished_spec. cbn [a i]. lia.
  - intros x Hx.
    assert (Hlt : (n < length a0)%nat) by (eapply lookup_lt_Some, Hx).
    replace (n `min` length a0)%nat with n by lia.
    cbn [Value iterator_Iterator ListIterator_Iterator].
    apply (ListIterator_at a0 n x Hx).
Qed.

(** ** Position of the map iterator, and [Count] *)

Lemma MapIterator_iter_Next (g : gmap string iface) (keys : list iface)
    (n : nat) :
  Nat.iter n Next (IMap {| list_iterator := {| a := keys; i := 0 |};
                           m := Some g |}) =
    IMap {| list_iterator := {| a := keys; i := Z.of_nat (n `min` length keys) |};
            m := Some g |}.
Proof.
  rewrite <- ListIterator_iter_Next.
  induction n as [|n IH]; [reflexivity|].
  change (Nat.iter (S n) Next ?x) with (Next (Nat.iter n Next x)).
  rewrite IH. reflexivity.
Qed.

Lemma range_order_lookup
    (range_order : gmap string iface -> list (string * iface))
    (g : gmap string iface) (n : nat) (k : string) (x : iface) :
  (forall g', range_order g' ≡ₚ map_to_list g') ->
  range_order g !! n = Some (k, x) -> g !! k = Some x.
Proof.
  intros Hperm Hn. apply elem_of_map_to_list. rewrite <- (Hperm g).
  eapply list_elem_of_lookup_2, Hn.
Qed.

(** X3. After [n] calls of [Next] the iterator of a map value stands at
    index [min n size]: it is finished exactly when [n >= size]; before
    that [Key] and [Value] are the key and the entry that [range] visited
    in position [n]; once finished, [Key] and [Value] panic with an index
    out of range (also at once for an empty map). *)
Theorem map_iterator_position
    (range_order : gmap string iface -> list (string * iface))
    (cv : ConfigValue) (g : gmap string iface) (n : nat) :
  (forall g', range_order g' ≡ₚ map_to_list g') ->
  toStrMap (v cv) = Some g ->
  let it := Nat.iter n Next (Iterate range_order cv) in
  Index it = Z.of_nat (n `min` size g) /\
  (Finished it = true <-> (size g <= n)%nat) /\
  (forall k x, range_order g !! n = Some (k, x) ->
     Key it = Ok k /\ Value it = Ok {| v := x |}) /\
  ((size g <= n)%nat ->
     Key it = Panic "index out of range" /\
     Value it = Panic "index out of range").
Proof.
  intros Hperm Hg.
  assert (Hlen : length (VString <$> (range_order g).*1) = size g).
  { rewrite !length_fmap, (Hperm g), length_map_to_list. reflexivity. }
  assert (Hit : Iterate range_order cv =
                IMap {| list_iterator :=
                          {| a := VString <$> (range_order g).*1; i := 0 |};
                        m := Some g |}).
  { rewrite Iterate_cases.
    destruct (v cv); try (cbn in Hg; discriminate);
      cbv beta iota; rewrite Hg, mapGetKeys_eq; reflexivity. }
  rewrite Hit, MapIterator_iter_Next, Hlen. cbn zeta.
  refine (conj eq_refl (conj _ (conj _ _))).
  - cbn [Finished iterator_Iterator MapIterator_Iterator list_iterator].
    rewrite ListIterator_Finished_spec. cbn [a i]. lia.
  - intros k x Hn.
    assert (Hk : (range_order g).*1 !! n = Some k)
      by (rewrite list_lookup_fmap, Hn; reflexivity).
    assert (Hlt : (n < size g)%nat).
    { rewrite <- Hlen, !length_fmap. eapply lookup_lt_Some, Hn. }
    replace (n `min` size g)%nat with n by lia.
    destruct (MapIterator_at g _ n k Hk) as (_ & Hkey & Hval & _).
    cbn [Key Value iterator_Iterator]. split; [exact Hkey|].
    rewrite Hval. unfold mapIndex.
    rewrite (range_order_lookup range_order g n k x Hperm Hn). reflexivity.
  - intros Hn.
    replace (n `min` size g)%nat with (size g) by lia.
    cbn [Key Value iterator_Iterator MapIterator_Iterator].
    unfold MapIterator_Value, MapIterator_Key, ListIterator_Value.
    cbn [list_iterator a i].
    rewrite sliceIndex_out_of_range by lia. split; reflexivity.
Qed.

Lemma map_iterator_position_witness :
  let g : gmap string iface :=
    {[ "host"%string := VString "h"; "port"%string := VInt 3306 ]} in
  let it := Nat.iter 1 Next (Iterate map_to_list {| v := VStrMap (Some g) |}) in
  Index it = 1 /\
  exists k x, map_to_list g !! 1%nat = Some (k, x) /\
              Key it = Ok k /\ Value it = Ok {| v := x |}.
Proof.
  intros g it.
  destruct (map_iterator_position map_to_list {| v := VStrMap (Some g) |} g 1
              (fun g' => reflexivity (map_to_list g')) eq_refl)
    as (Hindex & _ & Hentry & _).
  split; [exact Hindex|].
  destruct (map_to_list g !! 1%nat) as [[k x]|] eqn:Hlookup;
    [|vm_compute in Hlookup; discriminate].
  exists k, x. split; [reflexivity|]. apply Hentry. reflexivity.
Defined.

Lemma iterate_loop_MapIterator_short (g : gmap string iface)
    (ks : list string) :
  forall (fuel n : nat),
    (fuel < length ks - n)%nat ->
    iterate_loop fuel
      {| list_iterator := {| a := VString <$> ks; i := Z.of_nat n |};
         m := Some g |} = None.
Proof.
  induction fuel as [|fuel IH]; intros n Hfuel;
    (destruct (lookup_lt_is_Some_2 ks n) as [k Hk]; [lia|]);
    destruct (MapIterator_at g ks n k Hk) as (Hfin & Hkey & Hval & Hnext);
    cbn [iterate_loop]; rewrite Hfin; [reflexivity|].
  rewrite Hkey, Hval, Hnext, IH by lia. reflexivity.
Qed.

(** X4. [Count] is the number of rounds the iteration takes for a slice
    value. For every other value it is 0, also for a map, whose iteration
    takes as many rounds as the map has entries. *)
Theorem Count_counts_slice_rounds
    (range_order : gmap string iface -> list (string * iface))
    (cv : ConfigValue) (fuel : nat)
    (visited : list (string * ConfigValue)) :
  (forall g, range_order g ≡ₚ map_to_list g) ->
  iterate_loop fuel (Iterate range_order cv) = Some (Ok visited) ->
  (IsSlice cv = true -> Count cv = Z.of_nat (length visited)) /\
  (IsSlice cv = false -> Count cv = 0) /\
  (forall g, toStrMap (v cv) = Some g ->
     Count cv = 0 /\ length visited = size g).
Proof.
  intros Hperm Hrun. rewrite Iterate_cases in Hrun.
  refine (conj _ (conj _ _)).
  - unfold IsSlice, Count. destruct (v cv) as [| | | | |a0| | |];
      cbn; try discriminate. intros _.
    rewrite iterate_loop_IList in Hrun. change 0 with (Z.of_nat 0) in Hrun.
    rewrite (iterate_loop_ListIterator a0 fuel 0) in Hrun by lia.
    destruct (decide _); [|discriminate].
    injection Hrun as <-. rewrite length_fmap. reflexivity.
  - unfold IsSlice, Count. destruct (v cv); cbn; congruence.
  - intros g Hg.
    assert (Hcount : Count cv = 0)
      by (unfold Count; destruct (v cv); cbn in *; congruence).
    split; [exact Hcount|].
    assert (Hlen : length (range_order g).*1 = size g).
    { rewrite length_fmap, (Hperm g), length_map_to_list. reflexivity. }
    assert (Hrun' : iterate_loop fuel
              {| list_iterator :=
                   {| a := VString <$> (range_order g).*1; i := Z.of_nat 0 |};
                 m := Some g |} = Some (Ok visited)).
    { destruct (v cv); try (cbn in Hg; discriminate);
        cbv beta iota in Hrun;
        rewrite Hg, iterate_loop_IMap, mapGetKeys_eq in Hrun; exact Hrun. }
    destruct (decide (size g <= fuel)%nat) as [Hfuel|Hfuel].
    + rewrite (iterate_loop_MapIterator g _ fuel 0) in Hrun' by lia.
      injection Hrun' as <-. rewrite length_fmap. exact Hlen.
    + rewrite (iterate_loop_MapIterator_short g _ fuel 0) in Hrun' by lia.
      discriminate.
Qed.

Lemma Count_counts_slice_rounds_witness :
  Count {| v := VSlice [VInt 1; VInt 2] |} = 2 /\
  Count {| v := VStrMap (Some {[ "k"%string := VInt 1 ]}) |} = 0.
Proof.
  split.
  - destruct (Count_counts_slice_rounds map_to_list
                {| v := VSlice [VInt 1; VInt 2] |} 2
                [(EmptyString, {| v := VInt 1 |});
                 (EmptyString, {| v := VInt 2 |})]
                (fun g => reflexivity (map_to_list g)) eq_refl)
      as (Hslice & _).
    apply Hslice. reflexivity.
  - destruct (Count_counts_slice_rounds map_to_list
                {| v := VStrMap (Some {[ "k"%string := VInt 1 ]}) |} 1
                [("k"%string, {| v := VInt 1 |})]
                (fun g => reflexivity (map_to_list g)))
      as (_ & _ & Hmap); [vm_compute; reflexivity|].
    apply (Hmap {[ "k"%string := VInt 1 ]}). reflexivity.
Defined.

(** ** Sections *)

Lemma resolve_path_nil_map (segments : list string) :
  resolve_path None segments = VNil.
Proof. destruct segments as [|k [|k' rest]]; reflexivity. Qed.

Lemma toStrMap_not_map (cv : ConfigValue) :
  IsMap cv = false -> toStrMap (v cv) = None.
Proof. unfold IsMap. destruct (v cv); cbn; congruence. Qed.

(** X5. [Config] of a value that [toStrMap] does not convert (an unset
    value, a scalar, a slice, a nil string-keyed map, an interface-keyed
    map with a key that is not a string) is an empty configuration: [Get]
    returns an unset value for every key and does not panic. This covers
    every value for which [IsMap] is false. *)
Theorem Config_of_unconvertible_is_empty (cv : ConfigValue) :
  (IsSet cv = false -> toStrMap (v cv) = None) /\
  (IsMap cv = false -> toStrMap (v cv) = None) /\
  (toStrMap (v cv) = None ->
     forall key, Get (ConfigOf cv) key = Ok {| v := VNil |} /\
                 IsSet {| v := VNil |} = false).
Proof.
  refine (conj _ (conj (toStrMap_not_map cv) _)).
  - unfold IsSet. destruct (v cv); cbn; congruence.
  - intros Hnone key. split; [|reflexivity].
    rewrite Get_resolve. unfold resolve, ConfigOf, NewConfig. cbn [data].
    rewrite Hnone. cbn. rewrite resolve_path_nil_map. reflexivity.
Qed.

(** The descent along [ks1 ++ ks2] is the descent along [ks2] in the
    section found along [ks1]. *)
Lemma resolve_path_cons (m0 : StrMap) (k : string) (tail : list string) :
  tail <> [] ->
  resolve_path m0 (k :: tail) =
    match mapIndex m0 k with
    | (x, true) =>
        match toStrMap x with
        | Some g => resolve_path (Some g) tail
        | None => VNil
        end
    | (_, false) => VNil
    end.
Proof. destruct tail; [congruence|reflexivity]. Qed.

Lemma resolve_path_app (ks1 ks2 : list string) :
  ks1 <> [] -> ks2 <> [] ->
  forall m0 : StrMap,
    resolve_path m0 (ks1 ++ ks2) =
      resolve_path (toStrMap (resolve_path m0 ks1)) ks2.
Proof.
  intros Hne1 Hne2.
  induction ks1 as [|k rest IH]; intros m0; [congruence|].
  change ((k :: rest) ++ ks2) with (k :: (rest ++ ks2)).
  rewrite (resolve_path_cons m0 k (rest ++ ks2))
    by (destruct rest; [exact Hne2|discriminate]).
  destruct rest as [|k' rest].
  - change (resolve_path m0 [k]) with (mapIndex m0 k).1.
    change ([] ++ ks2) with ks2.
    destruct (mapIndex m0 k) as [x [|]] eqn:Hk; cbn [fst].
    + destruct (toStrMap x); [reflexivity|].
      rewrite resolve_path_nil_map. reflexivity.
    + apply mapIndex_absent in Hk as [-> _].
      change (toStrMap VNil) with (@None (gmap string iface)).
      rewrite resolve_path_nil_map. reflexivity.
  - rewrite (resolve_path_cons m0 k (k' :: rest)) by discriminate.
    destruct (mapIndex m0 k) as [x [|]].
    + destruct (toStrMap x) as [g|].
      * apply IH. discriminate.
      * change (toStrMap VNil) with (@None (gmap string iface)).
        rewrite resolve_path_nil_map. reflexivity.
    + change (toStrMap VNil) with (@None (gmap string iface)).
      rewrite resolve_path_nil_map. reflexivity.
Qed.

(** When no key of the top-level map contains the separator, a dotted
    key resolves along its segments. *)
Lemma resolve_join (c : Config) (ks : list string) :
  keys_dot_free (data c) -> ks <> [] ->
  Forall (fun k => dot_free k = true) ks ->
  resolve c (join ks) = resolve_path (data c) ks.
Proof.
  intros Hkeys Hne Hfree. unfold resolve.
  rewrite Split_join by assumption.
  destruct (mapIndex (data c) (join ks)) as [x [|]] eqn:Hlit; [|reflexivity].
  destruct ks as [|k [|k' rest]]; [congruence| |].
  - cbn [join] in Hlit. cbn [resolve_path]. rewrite Hlit. reflexivity.
  - exfalso.
    assert (Hin : is_Some (default ∅ (data c) !! join (k :: k' :: rest))).
    { unfold mapIndex in Hlit. destruct (data c) as [g|]; [|discriminate].
      change (is_Some (g !! join (k :: k' :: rest))).
      destruct (g !! join (k :: k' :: rest));
        [eexists; reflexivity|discriminate]. }
    apply Hkeys in Hin. rewrite join_cons, dot_free_app_SEP in Hin.
    discriminate.
Qed.

(** X6. Reading a section with [Config] and then a key inside it gives
    what the full dotted key gives on the whole configuration, provided
    no key of the configuration's top-level map and of the section
    contains the separator (such a key would be taken literally). *)
Theorem Get_through_section (c : Config) (ks1 ks2 : list string)
    (section : ConfigValue) :
  ks1 <> [] -> ks2 <> [] ->
  Forall (fun k => dot_free k = true) (ks1 ++ ks2) ->
  keys_dot_free (data c) ->
  Get c (join ks1) = Ok section ->
  keys_dot_free (data (ConfigOf section)) ->
  Get (ConfigOf section) (join ks2) = Get c (join (ks1 ++ ks2)).
Proof.
  intros Hne1 Hne2 Hfree Hkeys Hsection Hkeys'.
  apply Forall_app in Hfree as [Hfree1 Hfree2].
  rewrite Get_resolve in Hsection. injection Hsection as <-.
  rewrite !Get_resolve. f_equal. f_equal.
  rewrite (resolve_join (ConfigOf _)) by assumption.
  rewrite (resolve_join c (ks1 ++ ks2));
    [|assumption|destruct ks1; [congruence|discriminate]
     |apply Forall_app; split; assumption].
  rewrite resolve_path_app by assumption.
  unfold ConfigOf, NewConfig. cbn [data v].
  rewrite resolve_join by assumption. reflexivity.
Qed.

Lemma Get_through_section_witness :
  let db : gmap string iface :=
    {[ "account"%string := as_imap [("login"%string, VString "db_user")] ]} in
  let conf := NewConfig (Some {[ "db"%string := VStrMap (Some db) ]}) in
  Get (ConfigOf {| v := as_imap [("login"%string, VString "db_user")] |})
      "login" =
    Get conf "db.account.login".
Proof.
  intros db conf.
  apply (Get_through_section conf ["db"; "account"]%string ["login"%string]).
  - discriminate.
  - discriminate.
  - repeat constructor.
  - intros k [x Hk]. cbn in Hk.
    apply lookup_singleton_Some in Hk as [<- _]. reflexivity.
  - vm_compute. reflexivity.
  - intros k [x Hk]. cbn in Hk.
    apply lookup_insert_Some in Hk as [[<- _]|[_ Hk]]; [reflexivity|].
    rewrite lookup_empty in Hk. discriminate.
Defined.

(** ** Conversion of interface-keyed maps, continued *)

Lemma all_string_keys_Forall (entries : list (iface * iface)) :
  all_string_keys entries = true <->
  Forall (fun kv => is_string kv.1 = true) entries.
Proof.
  unfold all_string_keys. induction entries as [|kv rest IH]; cbn.
  - split; [constructor|reflexivity].
  - rewrite andb_true_iff, Forall_cons, IH. reflexivity.
Qed.

Lemma all_string_keys_Permutation (entries entries' : list (iface * iface)) :
  entries ≡ₚ entries' -> all_string_keys entries = all_string_keys entries'.
Proof.
  intros Hperm.
  destruct (all_string_keys entries) eqn:H1,
           (all_string_keys entries') eqn:H2; try reflexivity.
  - apply all_string_keys_Forall in H1. rewrite Hperm in H1.
    apply all_string_keys_Forall in H1. congruence.
  - apply all_string_keys_Forall in H2. rewrite <- Hperm in H2.
    apply all_string_keys_Forall in H2. congruence.
Qed.

(** X7. The order in which [range] visits an interface-keyed map does
    not matter to [toStrMap]: two enumerations of the same entries, with
    pairwise distinct keys as in a Go map, convert to the same result,
    also when that result is nil because of a key that is not a
    string. *)
Theorem toStrMap_order_independent (entries entries' : list (iface * iface)) :
  entries ≡ₚ entries' -> distinct_keys entries ->
  toStrMap (VIMap (Some entries)) = toStrMap (VIMap (Some entries')).
Proof.
  intros Hperm Hdistinct. rewrite !toStrMap_spec. cbv beta iota.
  cbn [default from_option]. unfold id.
  rewrite <- (all_string_keys_Permutation entries entries' Hperm).
  destruct (all_string_keys entries) eqn:Hall; [|reflexivity].
  f_equal. apply list_to_map_proper.
  - rewrite fmap_reverse, reverse_Permutation.
    apply string_entries_distinct; assumption.
  - rewrite !reverse_Permutation. unfold string_entries.
    rewrite Hperm. reflexivity.
Qed.

Lemma toStrMap_order_independent_witness :
  toStrMap (VIMap (Some [(VString "a", VInt 1); (VString "b", VInt 2)])) =
  toStrMap (VIMap (Some [(VString "b", VInt 2); (VString "a", VInt 1)])).
Proof.
  apply toStrMap_order_independent.
  - apply perm_swap.
  - unfold distinct_keys. cbn.
    apply NoDup_cons. split; [|apply NoDup_singleton].
    intros Hin. apply list_elem_of_singleton in Hin. discriminate.
Defined.

Lemma string_entries_as_imap (entries : list (string * iface)) :
  string_entries ((fun kv => (VString kv.1, kv.2)) <$> entries) = entries.
Proof.
  unfold string_entries.
  induction entries as [|[k x] rest IH]; [reflexivity|].
  cbn. f_equal. exact IH.
Qed.

Lemma all_string_keys_as_imap (entries : list (string * iface)) :
  all_string_keys ((fun kv => (VString kv.1, kv.2)) <$> entries) = true.
Proof.
  unfold all_string_keys.
  induction entries as [|[k x] rest IH]; [reflexivity|exact IH].
Qed.

(** X8. Round trip: a string-keyed map written out as an interface-keyed
    map, entry by entry in any order, converts back to the same map, so
    [Config] of it answers every [Get] as the configuration of the
    original map does. *)
Theorem toStrMap_as_imap_round_trip (g : gmap string iface)
    (entries : list (string * iface)) :
  entries ≡ₚ map_to_list g ->
  toStrMap (as_imap entries) = Some g /\
  forall key,
    Get (ConfigOf {| v := as_imap entries |}) key = Get (NewConfig (Some g)) key.
Proof.
  intros Hperm.
  assert (Hconv : toStrMap (as_imap entries) = Some g).
  { unfold as_imap. rewrite toStrMap_spec. cbv beta iota.
    cbn [default from_option]. unfold id.
    rewrite all_string_keys_as_imap, string_entries_as_imap.
    f_equal. rewrite <- (list_to_map_to_list g).
    apply list_to_map_proper.
    - rewrite fmap_reverse, reverse_Permutation, Hperm.
      apply NoDup_fst_map_to_list.
    - rewrite reverse_Permutation. exact Hperm. }
  split; [exact Hconv|].
  intros key. unfold ConfigOf. cbn [v]. rewrite Hconv. reflexivity.
Qed.

Lemma toStrMap_as_imap_round_trip_witness :
  toStrMap (as_imap (map_to_list
              ({[ "host"%string := VString "h"; "port"%string := VInt 3306 ]}
                 : gmap string iface))) =
    Some {[ "host"%string := VString "h"; "port"%string := VInt 3306 ]}.
Proof.
  apply (toStrMap_as_imap_round_trip
           {[ "host"%string := VString "h"; "port"%string := VInt 3306 ]}).
  reflexivity.
Defined.

(** ** Type predicates and the iterator variant *)

(** X9. [IsSlice] holds exactly when [Iterate] gives a list iterator.
    [IsMap] is necessary for a map iterator but not sufficient: a value
    with [IsMap] true gives the empty iterator exactly when it is a nil
    string-keyed map or an interface-keyed map with a key that is not a
    string. *)
Theorem predicates_and_iterator_variant
    (range_order : gmap string iface -> list (string * iface))
    (cv : ConfigValue) :
  (IsSlice cv = true <-> exists it, Iterate range_order cv = IList it) /\
  ((exists it, Iterate range_order cv = IMap it) <->
     IsMap cv = true /\ is_Some (toStrMap (v cv))) /\
  (IsMap cv = true ->
     (Iterate range_order cv = IEmpty mkEmptyIterator <->
        v cv = VStrMap None \/
        exists asIMap, v cv = VIMap asIMap /\
                       all_string_keys (default [] asIMap) = false)).
Proof.
  rewrite Iterate_cases. unfold IsSlice, IsMap, is_Some.
  destruct (v cv) as [| | | | |a0|[g|]|asIMap|]; cbn -[toStrMap];
    rewrite ?toStrMap_spec;
    try destruct (all_string_keys (default [] asIMap)) eqn:Hall;
    repeat split; intros;
    repeat match goal with
           | H : ex _ |- _ => destruct H
           | H : _ /\ _ |- _ => destruct H
           | H : _ \/ _ |- _ => destruct H
           end;
    try discriminate; try congruence; eauto.
Qed.

(** ** Sharing and allocation in the store embedding *)

Lemma Heap_toStrMap_loop_effect (entries : list (Heap.hval * Heap.hval))
    (strMap : Heap.loc) :
  forall s,
    let p := Heap.toStrMap_loop entries strMap s in
    (p.1 = Ok (Some strMap) \/ p.1 = Ok None) /\
    dom (Heap.strmaps p.2) = dom (Heap.strmaps s) /\
    Heap.imaps p.2 = Heap.imaps s /\ Heap.arrays p.2 = Heap.arrays s.
Proof.
  induction entries as [|[k x] rest IH]; intros s.
  - cbn. auto.
  - cbn [Heap.toStrMap_loop].
    destruct (Heap.assertString k) as [asStr [|]]; [|cbn; auto].
    unfold Heap.mbind, Heap.strmap_assign.
    match goal with
    | |- context [Heap.toStrMap_loop rest strMap ?s1] =>
        destruct (IH s1) as (Hres & Hdom & Hi & Ha)
    end.
    cbn in Hdom, Hi, Ha. rewrite dom_alter_L in Hdom.
    cbn zeta. auto.
Qed.

(** X10. For a string-keyed map [toStrMap] returns the map itself, not a
    copy, and touches nothing. For an interface-keyed map it makes exactly
    one new map, also when the conversion then fails on a key that is not
    a string, and returns that new map or nil, never the original. For any
    other value it returns nil and touches nothing. *)
Theorem toStrMap_shares_or_allocates (value : Heap.hval) (s : Heap.store) :
  let r := (Heap.toStrMap value s).1 in
  let s' := (Heap.toStrMap value s).2 in
  (forall m0, value = Heap.HStrMap m0 -> r = Ok m0 /\ s' = s) /\
  (forall asIMap, value = Heap.HIMap asIMap ->
     exists new : Heap.loc,
       Heap.strmaps s !! new = None /\
       (r = Ok (Some new) \/ r = Ok None) /\
       dom (Heap.strmaps s') = {[ new ]} ∪ dom (Heap.strmaps s) /\
       Heap.imaps s' = Heap.imaps s /\ Heap.arrays s' = Heap.arrays s) /\
  ((forall m0, value <> Heap.HStrMap m0) ->
   (forall m0, value <> Heap.HIMap m0) -> r = Ok None /\ s' = s).
Proof.
  intros r s'. subst r s'. refine (conj _ (conj _ _)).
  - intros m0 ->. split; reflexivity.
  - intros asIMap ->. exists (fresh (dom (Heap.strmaps s))).
    split; [apply make_strmap_fresh|].
    unfold Heap.toStrMap, Heap.mbind, Heap.make_strmap, Heap.imap_contents.
    cbn.
    match goal with
    | |- context [Heap.toStrMap_loop ?es ?l ?s1] =>
        destruct (Heap_toStrMap_loop_effect es l s1) as (Hres & Hdom & Hi & Ha)
    end.
    cbn in Hdom, Hi, Ha. rewrite dom_insert_L in Hdom. auto.
  - intros Hmap Himap.
    destruct value; try (split; reflexivity).
    + destruct (Hmap r). reflexivity.
    + destruct (Himap r). reflexivity.
Qed.

Lemma toStrMap_shares_or_allocates_witness :
  let s := {| Heap.strmaps := {[ 1%positive := {[ "k"%string := Heap.HInt 1 ]} ]};
              Heap.imaps := {[ 1%positive := [(Heap.HInt 0, Heap.HInt 1)] ]};
              Heap.arrays := ∅ |} in
  Heap.toStrMap (Heap.HStrMap (Some 1%positive)) s = (Ok (Some 1%positive), s) /\
  (Heap.toStrMap (Heap.HIMap (Some 1%positive)) s).1 = Ok None /\
  size (Heap.strmaps (Heap.toStrMap (Heap.HIMap (Some 1%positive)) s).2) = 2%nat /\
  Heap.toStrMap (Heap.HInt 7) s = (Ok None, s).
Proof.
  intros s. refine (conj _ (conj _ (conj _ _))).
  - destruct (toStrMap_shares_or_allocates (Heap.HStrMap (Some 1%positive)) s)
      as (Hshare & _).
    destruct (Hshare _ eq_refl) as [Hr Hs].
    destruct (Heap.toStrMap (Heap.HStrMap (Some 1%positive)) s) as [r s'].
    cbn in Hr, Hs. rewrite Hr, Hs. reflexivity.
  - vm_compute. reflexivity.
  - vm_compute. reflexivity.
  - destruct (toStrMap_shares_or_allocates (Heap.HInt 7) s) as (_ & _ & Hother).
    destruct Hother as [Hr Hs]; [discriminate|discriminate|].
    destruct (Heap.toStrMap (Heap.HInt 7) s) as [r s'].
    cbn in Hr, Hs. rewrite Hr, Hs. reflexivity.
Defined.

Lemma Heap_Get_repr_witness :
  let s := {| Heap.strmaps := {[ 1%positive := {[ "a"%string := Heap.HInt 1 ]} ]};
              Heap.imaps := ∅; Heap.arrays := ∅ |} in
  exists hcv cv s',
    Heap.Get (Heap.NewConfig (Some 1%positive)) "a" s = (Ok hcv, s') /\
    Get (NewConfig (Some {[ "a"%string := VInt 1 ]})) "a" = Ok cv /\
    Heap.unchanged s s' /\ repr s' (Heap.v hcv) (v cv).
Proof.
  intros s.
  apply (Heap_Get_repr s (Heap.NewConfig (Some 1%positive))
           (NewConfig (Some {[ "a"%string := VInt 1 ]})) "a").
  cbn. apply repr_strmap with {[ "a"%string := Heap.HInt 1 ]}.
  - reflexivity.
  - intros k. destruct (decide (k = "a"%string)) as [->|Hne].
    + rewrite !lookup_singleton_eq. constructor. constructor.
    + rewrite !lookup_singleton_ne by congruence. constructor.
Defined.

(** ** Constructors *)

Lemma string_app_cons (x : Ascii.ascii) (r s2 : string) :
  String.String x r +:+ s2 = String.String x (r +:+ s2).
Proof. reflexivity. Qed.

Lemma string_length_app (s1 s2 : string) :
  String.length (s1 +:+ s2) = (String.length s1 + String.length s2)%nat.
Proof.
  induction s1 as [|c r IH]; [reflexivity|].
  rewrite string_app_cons. cbn [String.length]. rewrite IH. reflexivity.
Qed.

Lemma string_get_app_r (s1 : string) (c : Ascii.ascii) (s2 : string) :
  String.get (String.length s1) (s1 +:+ String.String c s2) = Some c.
Proof.
  induction s1 as [|x r IH]; [reflexivity|].
  rewrite string_app_cons. exact IH.
Qed.

Lemma string_drop_app (s1 s2 : string) :
  string_drop (String.length s1) (s1 +:+ s2) = s2.
Proof.
  induction s1 as [|x r IH]; [destruct s2; reflexivity|].
  rewrite string_app_cons. exact IH.
Qed.

Lemma string_app_snoc (s1 : string) (c : Ascii.ascii) (s2 : string) :
  (s1 +:+ String.String c EmptyString) +:+ s2 = s1 +:+ String.String c s2.
Proof.
  induction s1 as [|x r IH]; [reflexivity|].
  rewrite !string_app_cons, IH. reflexivity.
Qed.

(** The loop of [filepath.Ext] runs over a tail of extension bytes. *)
Lemma Ext_loop_tail (tail : string) :
  string_forall ext_byte tail = true ->
  forall front : string,
    Ext_loop (front +:+ tail) (String.length front + String.length tail) =
      Ext_loop (front +:+ tail) (String.length front).
Proof.
  induction tail as [|c tail IH]; intros Htail front.
  - cbn [String.length]. rewrite Nat.add_0_r. reflexivity.
  - cbn in Htail. apply andb_prop in Htail as [Hc Htail].
    apply andb_prop in Hc as [Hsep Hdot]. apply negb_true_iff in Hsep, Hdot.
    specialize (IH Htail (front +:+ String.String c EmptyString)).
    rewrite string_app_snoc, string_length_app in IH. cbn [String.length] in IH.
    cbn [String.length].
    replace (String.length front + S (String.length tail))%nat
      with (String.length front + 1 + String.length tail)%nat by lia.
    rewrite IH, Nat.add_1_r. cbn [Ext_loop].
    rewrite string_get_app_r, Hsep, Hdot. reflexivity.
Qed.

Lemma Ext_extension (base ext : string) :
  string_forall ext_byte ext = true ->
  Ext (base +:+ String.String "." ext) = String.String "." ext.
Proof.
  intros Hext. unfold Ext.
  rewrite <- (string_app_snoc base "." ext), string_length_app.
  rewrite Ext_loop_tail by assumption.
  rewrite string_app_snoc, string_length_app. cbn [String.length].
  rewrite Nat.add_1_r. cbn [Ext_loop].
  rewrite string_get_app_r. cbn. apply string_drop_app.
Qed.

Lemma Ext_no_dot (last : string) :
  string_forall ext_byte last = true -> Ext last = EmptyString.
Proof.
  intros Hlast. unfold Ext.
  exact (Ext_loop_tail last Hlast EmptyString).
Qed.

Lemma Ext_no_dot_in_last_element (dir last : string) :
  string_forall ext_byte last = true ->
  Ext (dir +:+ String.String "/" last) = EmptyString.
Proof.
  intros Hlast. unfold Ext.
  rewrite <- (string_app_snoc dir "/" last), string_length_app.
  rewrite Ext_loop_tail by assumption.
  rewrite string_app_snoc, string_length_app. cbn [String.length].
  rewrite Nat.add_1_r. cbn [Ext_loop].
  rewrite string_get_app_r. reflexivity.
Qed.

Lemma lower_byte_no_upper (s : string) :
  string_forall (fun c => negb (is_upper c)) s = true ->
  string_map lower_byte s = s.
Proof.
  induction s as [|c r IH]; cbn; [reflexivity|].
  intros [Hc Hr]%andb_prop. apply negb_true_iff in Hc.
  rewrite IH by assumption. unfold lower_byte. rewrite Hc. reflexivity.
Qed.

Lemma lower_byte_ext_byte (c : Ascii.ascii) :
  ext_byte c = true -> Ascii.eqb (lower_byte c) "." = false.
Proof.
  destruct c as [[|] [|] [|] [|] [|] [|] [|] [|]];
    vm_compute; congruence.
Qed.

Lemma trimLeftByte_lower_ext (ext : string) :
  string_forall ext_byte ext = true ->
  trimLeftByte (string_map lower_byte ext) "." = string_map lower_byte ext.
Proof.
  destruct ext as [|c r]; [reflexivity|].
  cbn. intros [Hc _]%andb_prop.
  rewrite (lower_byte_ext_byte c Hc). reflexivity.
Qed.

Section ConstructorFacts.

Context {E : Externals}.

Lemma ToLower_ascii (s : string) :
  string_forall is_ascii_byte s = true -> ToLower s = string_map lower_byte s.
Proof.
  intros Hascii. unfold ToLower. rewrite Hascii.
  destruct (string_forall (fun c => negb (is_upper c)) s) eqn:Hupper;
    [|reflexivity].
  cbn. symmetry. apply lower_byte_no_upper, Hupper.
Qed.

Lemma NewConfigFromYaml_xor (data : string) :
  config_xor_error (NewConfigFromYaml data).
Proof.
  unfold NewConfigFromYaml. destruct (yaml_Unmarshal data) as [m0 [e|]]; exact I.
Qed.

Lemma NewConfigFromJson_xor (data : string) :
  config_xor_error (NewConfigFromJson data).
Proof.
  unfold NewConfigFromJson. destruct (json_Unmarshal data) as [m0 [e|]]; exact I.
Qed.

Lemma NewConfigFromReader_xor (r : Reader) (format : string) :
  config_xor_error (NewConfigFromReader r format).
Proof.
  unfold NewConfigFromReader. destruct (ioutil_ReadAll r) as [data [e|]];
    [exact I|].
  destruct (String.eqb format JSON); [apply NewConfigFromJson_xor|].
  destruct (String.eqb format YAML); [apply NewConfigFromYaml_xor|exact I].
Qed.

(** X11. Each of the four constructors returns exactly one of a
    configuration and an error, whatever the decoders and the file system
    do: a non-nil configuration comes with a nil error, and a nil
    configuration with a non-nil error. *)
Theorem constructors_config_xor_error :
  (forall data, config_xor_error (NewConfigFromYaml data)) /\
  (forall data, config_xor_error (NewConfigFromJson data)) /\
  (forall r format, config_xor_error (NewConfigFromReader r format)) /\
  (forall filename, config_xor_error (NewConfigFromFile filename)).
Proof.
  refine (conj NewConfigFromYaml_xor (conj NewConfigFromJson_xor
           (conj NewConfigFromReader_xor _))).
  intros filename. unfold NewConfigFromFile.
  destruct (os_Open filename) as [f|e]; [apply NewConfigFromReader_xor|exact I].
Qed.

(** X12. [NewConfigFromReader] reads the whole input first, so a read
    error is returned whatever the format; then the format must be exactly
    "json" or "yaml" (the comparison is case-sensitive), which selects the
    decoder; any other format gives the error
    [Unknown config format: '<format>']. So a configuration is returned
    only for these two formats. *)
Theorem NewConfigFromReader_format (r : Reader) (format : string) :
  (forall e, (ioutil_ReadAll r).2 = Some e ->
     NewConfigFromReader r format = (None, Some e)) /\
  ((ioutil_ReadAll r).2 = None ->
     (format = "json"%string ->
        NewConfigFromReader r format = NewConfigFromJson (ioutil_ReadAll r).1) /\
     (format = "yaml"%string ->
        NewConfigFromReader r format = NewConfigFromYaml (ioutil_ReadAll r).1) /\
     (format <> "json"%string -> format <> "yaml"%string ->
        NewConfigFromReader r format =
          (None, Some (Errorf ("Unknown config format: '" +:+ format +:+ "'"))))) /\
  (forall c, (NewConfigFromReader r format).1 = Some c ->
     (format = "json"%string \/ format = "yaml"%string) /\
     (ioutil_ReadAll r).2 = None).
Proof.
  unfold NewConfigFromReader, JSON, YAML.
  destruct (ioutil_ReadAll r) as [data [e|]]; cbn [fst snd].
  - refine (conj _ (conj _ _)); [intros e' [= <-]; reflexivity|discriminate|].
    intros c. discriminate.
  - refine (conj _ (conj _ _)); [discriminate| |].
    + intros _. refine (conj _ (conj _ _)).
      * intros ->. reflexivity.
      * intros ->. reflexivity.
      * intros Hjson Hyaml.
        apply String.eqb_neq in Hjson, Hyaml. rewrite Hjson, Hyaml.
        reflexivity.
    + intros c Hc. split; [|reflexivity].
      destruct (String.eqb format "json") eqn:Hjson;
        [left; apply String.eqb_eq, Hjson|].
      destruct (String.eqb format "yaml") eqn:Hyaml;
        [right; apply String.eqb_eq, Hyaml|discriminate].
Qed.

(** X13. [NewConfigFromFile] returns the error of [os.Open] as it is.
    Otherwise the format is the extension after the last dot of the last
    path element, in lower case: for an ASCII extension the file is read
    as [NewConfigFromReader] reads it with the lower-cased extension as
    format, so the extension is matched whatever its letter case; and a
    name whose last element has no dot is read with the empty format. *)
Theorem NewConfigFromFile_extension (filename : string) :
  (forall e, os_Open filename = inr e ->
     NewConfigFromFile filename = (None, Some e)) /\
  (forall f base ext,
     os_Open filename = inl f ->
     filename = base +:+ String.String "." ext ->
     string_forall ext_byte ext = true ->
     string_forall is_ascii_byte ext = true ->
     NewConfigFromFile filename =
       NewConfigFromReader f (string_map lower_byte ext)) /\
  (forall f dir last,
     os_Open filename = inl f ->
     filename = last \/ filename = dir +:+ String.String "/" last ->
     string_forall ext_byte last = true ->
     NewConfigFromFile filename = NewConfigFromReader f EmptyString).
Proof.
  unfold NewConfigFromFile. refine (conj _ (conj _ _)).
  - intros e ->. reflexivity.
  - intros f base ext -> -> Hext Hascii.
    rewrite Ext_extension by assumption.
    rewrite ToLower_ascii by (cbn; rewrite Hascii; reflexivity).
    cbn. rewrite trimLeftByte_lower_ext by assumption. reflexivity.
  - intros f dir last -> Hname Hlast.
    assert (Hnone : Ext filename = EmptyString).
    { destruct Hname as [->| ->];
        [apply Ext_no_dot|apply Ext_no_dot_in_last_element]; assumption. }
    rewrite Hnone. reflexivity.
Qed.

End ConstructorFacts.

Lemma NewConfigFromReader_format_witness :
  let E := sample_externals in
  NewConfigFromReader "{}"%string "json" = (Some (NewConfig (Some ∅)), None) /\
  NewConfigFromReader "{}"%string "JSON" =
    (None, Some (Errorf "Unknown config format: 'JSON'")).
Proof.
  intros E. split.
  - destruct (NewConfigFromReader_format (E := E) "{}"%string "json")
      as (_ & Hok & _).
    destruct (Hok eq_refl) as (Hjson & _). rewrite (Hjson eq_refl).
    reflexivity.
  - destruct (NewConfigFromReader_format (E := E) "{}"%string "JSON")
      as (_ & Hok & _).
    destruct (Hok eq_refl) as (_ & _ & Hother).
    apply Hother; discriminate.
Defined.

Lemma NewConfigFromFile_extension_witness :
  let E := sample_externals in
  NewConfigFromFile "etc/conf.JSON" = (Some (NewConfig (Some ∅)), None) /\
  NewConfigFromFile "etc/conf.yml" =
    (None, Some (Errorf "Unknown config format: 'yml'")) /\
  NewConfigFromFile "conf.d/settings" =
    (None, Some (Errorf "Unknown config format: ''")) /\
  NewConfigFromFile "missing.json" = (None, Some (Errorf "no such file")).
Proof.
  intros E. refine (conj _ (conj _ (conj _ _))).
  - destruct (NewConfigFromFile_extension (E := E) "etc/conf.JSON")
      as (_ & Hext & _).
    rewrite (Hext "{}"%string "etc/conf"%string "JSON"%string) by reflexivity.
    reflexivity.
  - destruct (NewConfigFromFile_extension (E := E) "etc/conf.yml")
      as (_ & Hext & _).
    rewrite (Hext "{}"%string "etc/conf"%string "yml"%string) by reflexivity.
    reflexivity.
  - destruct (NewConfigFromFile_extension (E := E) "conf.d/settings")
      as (_ & _ & Hnone).
    rewrite (Hnone "{}"%string "conf.d"%string "settings"%string);
      [reflexivity|reflexivity|right; reflexivity|reflexivity].
  - destruct (NewConfigFromFile_extension (E := E) "missing.json")
      as (Hopen & _).
    apply Hopen. reflexivity.
Defined.
